(** * Notes backend: the in-memory repository and its HTTP routes

    A shallow embedding of
      - [api/models.py]                  (Note, NoteCreate, NoteUpdate),
      - [api/repositories/notes_repo.py] (NotesRepository),
      - [api/routes/notes.py]            (the five route handlers),
    followed by the properties of the repository and of the mapping from
    repository outcomes to HTTP responses. *)

From Stdlib Require Import ZArith NArith Arith Bool List String Ascii Lia.
From Stdlib Require Import Permutation Sorted.
Import ListNotations.

Local Open Scope string_scope.
Local Open Scope Z_scope.

(* ===================================================================== *)
(** ** Values *)
(* ===================================================================== *)

(** [uuid.UUID]: the 128-bit integer [UUID.int]. *)
Definition UUID := N.
Bind Scope N_scope with UUID.

(** [datetime.datetime] as produced by [datetime.utcnow()]: a naive UTC
    instant, counted in microseconds; [<=] on datetimes is [Z.le]. *)
Definition datetime := Z.

Definition hex_digit (n : N) : ascii :=
  nth (N.to_nat n)
      ["0"; "1"; "2"; "3"; "4"; "5"; "6"; "7";
       "8"; "9"; "a"; "b"; "c"; "d"; "e"; "f"]%char "0"%char.

(** ['%0kx' % n]: the [k] low hexadecimal digits of [n], most significant
    first. *)
Fixpoint hex_digits (k : nat) (n : N) : string :=
  match k with
  | O => ""
  | S k' => hex_digits k' (n / 16) ++ String (hex_digit (n mod 16)) ""
  end.

(** [UUID.__str__]: ['%032x' % self.int], cut 8-4-4-4-12. *)
Definition uuid_str (u : UUID) : string :=
  let hex := hex_digits 32 u in
  substring 0 8 hex ++ "-" ++ substring 8 4 hex ++ "-" ++
  substring 12 4 hex ++ "-" ++ substring 16 4 hex ++ "-" ++
  substring 20 12 hex.

(* ===================================================================== *)
(** ** models.py *)
(* ===================================================================== *)

(** The [Field] constraints of [models.py], which pydantic checks when a
    payload is built: [min_length=1, max_length=200] on a title,
    [min_length=1] on a content; an optional field left out passes. *)
Definition valid_title (s : string) : bool :=
  ((1 <=? length s) && (length s <=? 200))%nat.

Definition valid_content (s : string) : bool := (1 <=? length s)%nat.

Module NoteCreate.
Record t := mk { title : string; content : string }.
End NoteCreate.

Module NoteUpdate.
Record t := mk { title : option string; content : option string }.
End NoteUpdate.

Module Note.
Record t := mk {
  id : UUID;
  title : string;
  content : string;
  created_at : datetime;
  updated_at : datetime
}.

(** The constructor [Note(id=, title=, content=, created_at=,
    updated_at=)]: pydantic checks the [Field] constraints that [Note]
    inherits from [NoteBase] and raises its own validation error, building
    nothing, when the title or the content violates them ([None]). *)
Definition construct (id' : UUID) (title' content' : string)
    (created_at' updated_at' : datetime) : option t :=
  if valid_title title' && valid_content content'
  then Some {| id := id';
               title := title';
               content := content';
               created_at := created_at';
               updated_at := updated_at' |}
  else None.

(** [Note.new_from_create]; [now] is the value of [datetime.utcnow()]
    and [u] the value of [uuid4()] read by the call. *)
Definition new_from_create (u : UUID) (now : datetime)
    (data : NoteCreate.t) : option t :=
  construct u (NoteCreate.title data) (NoteCreate.content data) now now.

(** [note.model_copy(update={"title": ..., "content": ...,
    "updated_at": ...})]: the fields of a copy, the three named ones
    replaced. *)
Definition model_copy (n : t) (title' content' : string)
    (updated_at' : datetime) : t :=
  {| id := id n;
     title := title';
     content := content';
     created_at := created_at n;
     updated_at := updated_at' |}.
End Note.

(** A [Note] instance on the Python heap: its identity ([id(obj)]) and its
    current attribute values.  pydantic models are mutable, so whoever
    holds the object can assign to its attributes.  The dict below keeps
    each object it references together with that object's current values;
    an assignment made through another reference to the same object is
    [setattr], which rewrites the values wherever the identity occurs. *)
Record PyObj := mkObj { oid : nat; fields : Note.t }.

Definition valid_create (p : NoteCreate.t) : bool :=
  valid_title (NoteCreate.title p) && valid_content (NoteCreate.content p).

Definition valid_update (p : NoteUpdate.t) : bool :=
  match NoteUpdate.title p with Some s => valid_title s | None => true end &&
  match NoteUpdate.content p with Some s => valid_content s | None => true end.

Definition valid_note (n : Note.t) : bool :=
  valid_title (Note.title n) && valid_content (Note.content n).

(* ===================================================================== *)
(** ** Python built-ins used by the repository *)
(* ===================================================================== *)

(** [Dict[UUID, Note]]: an association list in insertion order. *)
Module Dict.
Definition t := list (UUID * PyObj).

Definition empty : t := [].

(** [d.get(k)] *)
Fixpoint get (d : t) (k : UUID) : option PyObj :=
  match d with
  | [] => None
  | (k', v) :: d' => if N.eqb k' k then Some v else get d' k
  end.

(** [k in d] *)
Definition contains (d : t) (k : UUID) : bool :=
  match get d k with Some _ => true | None => false end.

(** [d[k] = v]: an existing key keeps its position, a new key goes to
    the end. *)
Fixpoint set (d : t) (k : UUID) (v : PyObj) : t :=
  match d with
  | [] => [(k, v)]
  | (k', v') :: d' =>
      if N.eqb k' k then (k, v) :: d' else (k', v') :: set d' k v
  end.

(** [del d[k]] (for [k in d]) *)
Fixpoint del (d : t) (k : UUID) : t :=
  match d with
  | [] => []
  | (k', v') :: d' => if N.eqb k' k then d' else (k', v') :: del d' k
  end.

Definition keys (d : t) : list UUID := map fst d.

(** [d.values()] *)
Definition values (d : t) : list PyObj := map snd d.

(** Keys of a dict are pairwise distinct. *)
Definition wf (d : t) : Prop := NoDup (keys d).
End Dict.

(** [sorted(l, key=key)]: Python's sort is stable; insertion from the
    right, each element placed before the first element with a key that
    is not smaller, is the stable sort. *)
Section Sorted.
Context {A : Type} (key : A -> Z).

Fixpoint insert_by (x : A) (l : list A) : list A :=
  match l with
  | [] => [x]
  | y :: l' => if key x <=? key y then x :: y :: l'
               else y :: insert_by x l'
  end.

Fixpoint sorted (l : list A) : list A :=
  match l with
  | [] => []
  | x :: l' => insert_by x (sorted l')
  end.

(** The order the result is sorted by. *)
Definition key_le (a b : A) : Prop := key a <= key b.
End Sorted.

(* ===================================================================== *)
(** ** Exceptions and the state they are raised in *)
(* ===================================================================== *)

(** [NotFoundError] and [ValidationError] are the two classes of
    [notes_repo.py]; [PydanticValidationError] is pydantic's own
    [ValidationError], a different class, whose text is not modelled. *)
Inductive exn :=
| NotFoundError (msg : string)
| ValidationError (msg : string)
| HTTPException (status_code : Z) (detail : string)
| PydanticValidationError.

Inductive result (A : Type) :=
| Ok (a : A)
| Raise (e : exn).
Arguments Ok {A} a.
Arguments Raise {A} e.

(** The process state: the dict of the single repository
    ([get_repository] hands out one instance) and the next unused object
    identity. *)
Record World := mkWorld { next_oid : nat; _store : Dict.t }.

Definition empty_world : World := {| next_oid := 0; _store := Dict.empty |}.

(** A computation reads and writes the world and returns or raises. *)
Definition M (A : Type) := World -> result A * World.

Definition ret {A} (a : A) : M A := fun w => (Ok a, w).

Definition bind {A B} (m : M A) (f : A -> M B) : M B :=
  fun w => match m w with
           | (Ok a, w') => f a w'
           | (Raise e, w') => (Raise e, w')
           end.

Definition raise {A} (e : exn) : M A := fun w => (Raise e, w).

(** [try: m  except ...: h e]; [h e = None] when no clause matches. *)
Definition try_except {A} (m : M A) (h : exn -> option (M A)) : M A :=
  fun w => match m w with
           | (Ok a, w') => (Ok a, w')
           | (Raise e, w') =>
               match h e with
               | Some k => k w'
               | None => (Raise e, w')
               end
           end.

Declare Scope py_scope.
Delimit Scope py_scope with py.
Notation "x <- m ;; k" := (bind m (fun x => k))
  (at level 61, m at next level, right associativity) : py_scope.
Notation "m ;;; k" := (bind m (fun _ => k))
  (at level 61, right associativity) : py_scope.
Local Open Scope py_scope.

(** Constructing an instance ([Note(...)], [model_copy]) allocates an
    object with an identity never used before. *)
Definition alloc (n : Note.t) : M PyObj :=
  fun w => (Ok {| oid := next_oid w; fields := n |},
            {| next_oid := S (next_oid w); _store := _store w |}).

Definition store_get (k : UUID) : M (option PyObj) :=
  fun w => (Ok (Dict.get (_store w) k), w).

Definition store_contains (k : UUID) : M bool :=
  fun w => (Ok (Dict.contains (_store w) k), w).

Definition store_values : M (list PyObj) :=
  fun w => (Ok (Dict.values (_store w)), w).

Definition store_set (k : UUID) (v : PyObj) : M unit :=
  fun w => (Ok tt, {| next_oid := next_oid w;
                      _store := Dict.set (_store w) k v |}).

Definition store_del (k : UUID) : M unit :=
  fun w => (Ok tt, {| next_oid := next_oid w;
                      _store := Dict.del (_store w) k |}).

(** [obj.attr = value] by a holder of [target], seen from a reference
    [v]: the object with the identity of [target] changes, every other
    object stays. *)
Definition assign (target : PyObj) (f : Note.t -> Note.t) (v : PyObj)
    : PyObj :=
  if Nat.eqb (oid v) (oid target)
  then {| oid := oid v; fields := f (fields v) |}
  else v.

Definition setattr (target : PyObj) (f : Note.t -> Note.t) : M unit :=
  fun w => (Ok tt,
            {| next_oid := next_oid w;
               _store := map (fun kv : UUID * PyObj =>
                                (fst kv, assign target f (snd kv)))
                             (_store w) |}).

(** [note.title = T] *)
Definition set_title (T : string) (n : Note.t) : Note.t :=
  {| Note.id := Note.id n;
     Note.title := T;
     Note.content := Note.content n;
     Note.created_at := Note.created_at n;
     Note.updated_at := Note.updated_at n |}.

(* ===================================================================== *)
(** ** repositories/notes_repo.py *)
(* ===================================================================== *)

Module NotesRepository.

Definition not_found_msg (note_id : UUID) : string :=
  "Note with id " ++ uuid_str note_id ++ " not found".

Definition at_least_one_msg : string :=
  "At least one of 'title' or 'content' must be provided".

Definition list_notes : M (list PyObj) :=
  vs <- store_values ;;
  ret (sorted (fun n => Note.created_at (fields n)) vs).

(** [u] and [now] are the values [uuid4()] and [datetime.utcnow()]
    return inside [Note.new_from_create]. *)
Definition create_note (u : UUID) (now : datetime)
    (payload : NoteCreate.t) : M PyObj :=
  match Note.new_from_create u now payload with
  | None => raise PydanticValidationError
  | Some n =>
      note <- alloc n ;;
      store_set (Note.id (fields note)) note ;;;
      ret note
  end.

(** [if not note] holds for [None] only: a [Note] instance is truthy. *)
Definition get_note (note_id : UUID) : M PyObj :=
  note <- store_get note_id ;;
  match note with
  | None => raise (NotFoundError (not_found_msg note_id))
  | Some n => ret n
  end.

(** [now] is the value [datetime.utcnow()] returns when the copy is
    built. *)
Definition update_note (now : datetime) (note_id : UUID)
    (payload : NoteUpdate.t) : M PyObj :=
  note <- get_note note_id ;;
  match NoteUpdate.title payload, NoteUpdate.content payload with
  | None, None => raise (ValidationError at_least_one_msg)
  | _, _ =>
      updated <- alloc (Note.model_copy (fields note)
                   (match NoteUpdate.title payload with
                    | Some s => s | None => Note.title (fields note) end)
                   (match NoteUpdate.content payload with
                    | Some s => s | None => Note.content (fields note) end)
                   now) ;;
      store_set note_id updated ;;;
      ret updated
  end.

Definition delete_note (note_id : UUID) : M unit :=
  present <- store_contains note_id ;;
  if negb present
  then raise (NotFoundError (not_found_msg note_id))
  else store_del note_id.

End NotesRepository.

(* ===================================================================== *)
(** ** What FastAPI and Starlette do around a route handler *)
(* ===================================================================== *)

(** JSON values as they are written to the response; [JDatetime t] is
    the ISO-8601 string of [t]. *)
#[warnings="-register-all"]
Inductive json :=
| JNull
| JString (s : string)
| JDatetime (t : datetime)
| JArray (l : list json)
| JObject (members : list (string * json)).

(** The bytes of a response body: none, the rendering of a JSON value,
    plain text, or the JSON object [{"detail": [...]}] in which FastAPI
    lists the errors of a request it refuses (the error records are not
    modelled). *)
Inductive Body :=
| NoBody
| Json (j : json)
| Text (s : string)
| RequestErrors.

Record Response := mkResponse { status : Z; body : Body }.

(** Python values handed to [JSONResponse] by the routes. *)
Inductive PyContent :=
| PyNone
| PyDetail (detail : string).

(** [json.dumps] on those values: [None] is rendered as [null]. *)
Definition json_dumps (c : PyContent) : json :=
  match c with
  | PyNone => JNull
  | PyDetail d => JObject [("detail", JString d)]
  end.

(** [starlette.responses.JSONResponse(status_code=, content=)]: its
    [render] is [json.dumps(content)] whatever the content and whatever
    the status code, so the body always holds a JSON text. *)
Definition JSONResponse (status_code : Z) (content : PyContent) : Response :=
  {| status := status_code; body := Json (json_dumps content) |}.

(** The body of an error response: [{"detail": msg}]. *)
Definition detail_body (msg : string) : Body :=
  Json (json_dumps (PyDetail msg)).

(** The [response_model=Note] serialisation of a returned note. *)
Definition note_json (n : Note.t) : json :=
  JObject [("id", JString (uuid_str (Note.id n)));
           ("title", JString (Note.title n));
           ("content", JString (Note.content n));
           ("created_at", JDatetime (Note.created_at n));
           ("updated_at", JDatetime (Note.updated_at n))].

Definition notes_json (l : list PyObj) : json :=
  JArray (map (fun o => note_json (fields o)) l).

(** A route whose handler returns a value.  FastAPI first builds the
    parameters of the handler: when the request body does not satisfy the
    model of the payload ([body_ok = false]) it answers 422 and the
    handler does not run.  Otherwise the value returned is serialised
    under the status code of the decorator; an [HTTPException] becomes a
    response with its own status and [{"detail": ...}]; anything else is
    the server-error response. *)
Definition serve_value {A} (body_ok : bool) (status_code : Z)
    (encode : A -> json) (endpoint : M A) : World -> Response * World :=
  fun w =>
    if body_ok then
      match endpoint w with
      | (Ok a, w') =>
          ({| status := status_code; body := Json (encode a) |}, w')
      | (Raise (HTTPException s d), w') =>
          (JSONResponse s (PyDetail d), w')
      | (Raise _, w') =>
          ({| status := 500; body := Text "Internal Server Error" |}, w')
      end
    else ({| status := 422; body := RequestErrors |}, w).

(** A route whose handler returns a [Response] object: it is sent as it
    is. *)
Definition serve_response (endpoint : M Response)
    : World -> Response * World :=
  fun w => match endpoint w with
           | (Ok r, w') => (r, w')
           | (Raise (HTTPException s d), w') =>
               (JSONResponse s (PyDetail d), w')
           | (Raise _, w') =>
               ({| status := 500; body := Text "Internal Server Error" |}, w')
           end.

(* ===================================================================== *)
(** ** routes/notes.py *)
(* ===================================================================== *)

Definition HTTP_200_OK : Z := 200.
Definition HTTP_201_CREATED : Z := 201.
Definition HTTP_204_NO_CONTENT : Z := 204.
Definition HTTP_400_BAD_REQUEST : Z := 400.
Definition HTTP_404_NOT_FOUND : Z := 404.

Module Routes.

(** [except NotFoundError as exc: raise HTTPException(404, str(exc))] *)
Definition except_not_found {A} (exc : exn) : option (M A) :=
  match exc with
  | NotFoundError msg => Some (raise (HTTPException HTTP_404_NOT_FOUND msg))
  | _ => None
  end.

(** [except ValidationError as exc: raise HTTPException(400, str(exc))] *)
Definition except_validation {A} (exc : exn) : option (M A) :=
  match exc with
  | ValidationError msg =>
      Some (raise (HTTPException HTTP_400_BAD_REQUEST msg))
  | _ => None
  end.

Definition list_notes : M (list PyObj) :=
  NotesRepository.list_notes.

Definition create_note (u : UUID) (now : datetime)
    (payload : NoteCreate.t) : M PyObj :=
  try_except (NotesRepository.create_note u now payload)
             except_validation.

Definition get_note (note_id : UUID) : M PyObj :=
  try_except (NotesRepository.get_note note_id) except_not_found.

Definition update_note (now : datetime) (note_id : UUID)
    (payload : NoteUpdate.t) : M PyObj :=
  try_except (NotesRepository.update_note now note_id payload)
             (fun exc =>
                match except_not_found exc with
                | Some k => Some k
                | None => except_validation exc
                end).

Definition delete_note (note_id : UUID) : M Response :=
  try_except (NotesRepository.delete_note note_id) except_not_found ;;;
  ret (JSONResponse HTTP_204_NO_CONTENT PyNone).

End Routes.

(** The five routes as registered on the router. *)
Module App.
Definition GET_notes : World -> Response * World :=
  serve_value true HTTP_200_OK notes_json Routes.list_notes.

Definition POST_notes (u : UUID) (now : datetime) (payload : NoteCreate.t)
    : World -> Response * World :=
  serve_value (valid_create payload) HTTP_201_CREATED
              (fun o => note_json (fields o))
              (Routes.create_note u now payload).

Definition GET_note (note_id : UUID) : World -> Response * World :=
  serve_value true HTTP_200_OK (fun o => note_json (fields o))
              (Routes.get_note note_id).

Definition PUT_note (now : datetime) (note_id : UUID)
    (payload : NoteUpdate.t) : World -> Response * World :=
  serve_value (valid_update payload) HTTP_200_OK
              (fun o => note_json (fields o))
              (Routes.update_note now note_id payload).

Definition DELETE_note (note_id : UUID) : World -> Response * World :=
  serve_response (Routes.delete_note note_id).
End App.

(* ===================================================================== *)
(** ** Sequences of repository calls *)
(* ===================================================================== *)

Inductive Call :=
| CallList
| CallCreate (u : UUID) (payload : NoteCreate.t)
| CallGet (note_id : UUID)
| CallUpdate (note_id : UUID) (payload : NoteUpdate.t)
| CallDelete (note_id : UUID).

(** A call together with the reading of the clock while it runs. *)
Record Event := mkEvent { at_time : datetime; call : Call }.

Definition exec (e : Event) (w : World) : World :=
  match call e with
  | CallList => snd (NotesRepository.list_notes w)
  | CallCreate u p => snd (NotesRepository.create_note u (at_time e) p w)
  | CallGet i => snd (NotesRepository.get_note i w)
  | CallUpdate i p => snd (NotesRepository.update_note (at_time e) i p w)
  | CallDelete i => snd (NotesRepository.delete_note i w)
  end.

Fixpoint run (tr : list Event) (w : World) : World :=
  match tr with
  | [] => w
  | e :: tr' => run tr' (exec e w)
  end.

(** The clock never steps back: each reading is at least the one before,
    starting from [t0]. *)
Fixpoint clock_nondecreasing (t0 : datetime) (tr : list Event) : Prop :=
  match tr with
  | [] => True
  | e :: tr' => t0 <= at_time e /\ clock_nondecreasing (at_time e) tr'
  end.

(** The [updated_at] values returned by the successful updates of
    [note_id] along a run, oldest first. *)
Fixpoint update_stamps (note_id : UUID) (tr : list Event) (w : World)
    : list datetime :=
  match tr with
  | [] => []
  | e :: tr' =>
      match call e with
      | CallUpdate i p =>
          if N.eqb i note_id then
            match NotesRepository.update_note (at_time e) i p w with
            | (Ok o, _) => [Note.updated_at (fields o)]
            | (Raise _, _) => []
            end
          else []
      | _ => []
      end ++ update_stamps note_id tr' (exec e w)
  end.

(** The note the store holds under [note_id], if any. *)
Definition stored (w : World) (note_id : UUID) : option Note.t :=
  option_map fields (Dict.get (_store w) note_id).

(** Objects in the store were allocated before [next_oid]. *)
Definition oids_allocated (w : World) : Prop :=
  Forall (fun o => (oid o < next_oid w)%nat) (Dict.values (_store w)).

(** Each note is stored under its own id. *)
Definition keyed_by_id (w : World) : Prop :=
  Forall (fun kv : UUID * PyObj => Note.id (fields (snd kv)) = fst kv)
         (_store w).

(* ===================================================================== *)
(** ** Names for what the operations compute *)
(* ===================================================================== *)

(** The sort key of [list_notes]: [lambda n: n.created_at]. *)
Definition created (o : PyObj) : Z := Note.created_at (fields o).

(** The object a successful update builds and the world it leaves. *)
Definition updated_obj (now : datetime) (payload : NoteUpdate.t)
    (w : World) (o : PyObj) : PyObj :=
  {| oid := next_oid w;
     fields := Note.model_copy (fields o)
                 (match NoteUpdate.title payload with
                  | Some s => s | None => Note.title (fields o) end)
                 (match NoteUpdate.content payload with
                  | Some s => s | None => Note.content (fields o) end)
                 now |}.

Definition updated_world (now : datetime) (i : UUID)
    (payload : NoteUpdate.t) (w : World) (o : PyObj) : World :=
  {| next_oid := S (next_oid w);
     _store := Dict.set (_store w) i (updated_obj now payload w o) |}.

(** The object [create_note] builds. *)
Definition created_obj (u : UUID) (now : datetime) (p : NoteCreate.t)
    (w : World) : PyObj :=
  {| oid := next_oid w;
     fields := Note.mk u (NoteCreate.title p) (NoteCreate.content p)
                       now now |}.

(** A store with two notes, created at times 10 and 20. *)
Definition sample_world : World :=
  snd (NotesRepository.create_note 2 20 (NoteCreate.mk "C" "D")
         (snd (NotesRepository.create_note 1 10 (NoteCreate.mk "A" "B")
                 empty_world))).

Definition sample_note : Note.t := Note.mk 1 "A" "B" 10 10.

(** Every stored note was created no later than it was last updated, and
    last updated no later than [t]. *)
Definition stamps_ok (t : datetime) (w : World) : Prop :=
  Forall (fun o => Note.created_at (fields o) <= Note.updated_at (fields o) /\
                   Note.updated_at (fields o) <= t)
         (Dict.values (_store w)).

(** What holds of the store after any sequence of repository calls. *)
Definition store_inv (w : World) : Prop :=
  Dict.wf (_store w) /\ oids_allocated w /\ keyed_by_id w.

Definition sample_trace : list Event :=
  [mkEvent 10 (CallCreate 1 (NoteCreate.mk "A" "B"));
   mkEvent 20 (CallUpdate 1 (NoteUpdate.mk (Some "A2") None));
   mkEvent 20 (CallUpdate 1 (NoteUpdate.mk None (Some "B2")));
   mkEvent 30 (CallDelete 1)].

(** The exception a computation ends with, if it raises. *)
Definition exn_of {A} (r : result A * World) : option exn :=
  match fst r with
  | Ok _ => None
  | Raise x => Some x
  end.

(** The exception a repository call raises in [w], if it raises. *)
Definition raised (e : Event) (w : World) : option exn :=
  match call e with
  | CallList => exn_of (NotesRepository.list_notes w)
  | CallCreate u p => exn_of (NotesRepository.create_note u (at_time e) p w)
  | CallGet i => exn_of (NotesRepository.get_note i w)
  | CallUpdate i p => exn_of (NotesRepository.update_note (at_time e) i p w)
  | CallDelete i => exn_of (NotesRepository.delete_note i w)
  end.

(** The id a call writes under, if it writes: the id drawn by a create,
    the id given to an update or a delete. *)
Definition written_id (c : Call) : option UUID :=
  match c with
  | CallList | CallGet _ => None
  | CallCreate u _ => Some u
  | CallUpdate i _ => Some i
  | CallDelete i => Some i
  end.

(** A call that neither deletes [i] nor creates a note under [i]. *)
Definition keeps (i : UUID) (c : Call) : Prop :=
  match c with
  | CallCreate u _ => u <> i
  | CallDelete j => j <> i
  | _ => True
  end.

(** No two entries of the store reference the same object. *)
Definition oids_distinct (w : World) : Prop :=
  NoDup (map oid (Dict.values (_store w))).

(** The ids of the notes in a list, in order. *)
Definition note_ids (l : list PyObj) : list UUID :=
  map (fun o => Note.id (fields o)) l.

(** A payload that names at least one field. *)
Definition names_a_field (p : NoteUpdate.t) : Prop :=
  NoteUpdate.title p <> None \/ NoteUpdate.content p <> None.

(** The two creations that lead to [sample_world]. *)
Definition sample_creates : list Event :=
  [mkEvent 10 (CallCreate 1 (NoteCreate.mk "A" "B"));
   mkEvent 20 (CallCreate 2 (NoteCreate.mk "C" "D"))].

(** The route that serves a call: [GET /notes], [POST /notes],
    [GET], [PUT] and [DELETE /notes/{note_id}]. *)
Definition dispatch (e : Event) : World -> Response * World :=
  match call e with
  | CallList => App.GET_notes
  | CallCreate u p => App.POST_notes u (at_time e) p
  | CallGet i => App.GET_note i
  | CallUpdate i p => App.PUT_note (at_time e) i p
  | CallDelete i => App.DELETE_note i
  end.

(** The status code in the decorator of the route of a call. *)
Definition success_status (c : Call) : Z :=
  match c with
  | CallCreate _ _ => HTTP_201_CREATED
  | CallDelete _ => HTTP_204_NO_CONTENT
  | _ => HTTP_200_OK
  end.

(** A call whose payload, if it has one, passed validation. *)
Definition valid_call (c : Call) : bool :=
  match c with
  | CallCreate _ p => valid_create p
  | CallUpdate _ p => valid_update p
  | _ => true
  end.

(** The Python process around the routes: the [NotesRepository]
    instances built so far, each with its dict, in the order in which they
    were built; the module-level name [_GLOBAL_NOTES_REPOSITORY], unbound
    ([None]) or bound to one of the instances; and the next unused
    identity for note objects. *)
Record Process := mkProcess {
  heap_next : nat;
  repositories : list Dict.t;
  _GLOBAL_NOTES_REPOSITORY : option nat
}.

(** [get_repository]: the instance the global name is bound to.  When
    the name is unbound ([NameError]) a [NotesRepository()] is built, with
    an empty dict, the name is bound to it, and it is the one returned. *)
Definition get_repository (pr : Process) : nat * Process :=
  match _GLOBAL_NOTES_REPOSITORY pr with
  | Some repo => (repo, pr)
  | None =>
      (List.length (repositories pr),
       {| heap_next := heap_next pr;
          repositories := (repositories pr ++ [Dict.empty])%list;
          _GLOBAL_NOTES_REPOSITORY := Some (List.length (repositories pr)) |})
  end.

(** The dict of an instance, and the instances after a handler has
    changed the dict of one. *)
Definition repo_store (pr : Process) (repo : nat) : Dict.t :=
  nth repo (repositories pr) Dict.empty.

Fixpoint write_repo (repo : nat) (d : Dict.t) (l : list Dict.t)
    : list Dict.t :=
  match l, repo with
  | [], _ => []
  | _ :: l', O => d :: l'
  | d0 :: l', S repo' => d0 :: write_repo repo' d l'
  end.

(** A request: [repo = Depends(get_repository)] is resolved and the route
    runs on the instance it got; the global name is left as
    [get_repository] left it. *)
Definition request (e : Event) (pr : Process) : Response * Process :=
  let (repo, pr1) := get_repository pr in
  let (r, w') := dispatch e {| next_oid := heap_next pr1;
                               _store := repo_store pr1 repo |} in
  (r, {| heap_next := next_oid w';
         repositories := write_repo repo (_store w') (repositories pr1);
         _GLOBAL_NOTES_REPOSITORY := _GLOBAL_NOTES_REPOSITORY pr1 |}).

Fixpoint requests (tr : list Event) (pr : Process) : Process :=
  match tr with
  | [] => pr
  | e :: tr' => requests tr' (snd (request e pr))
  end.

(** A process in which no request was served yet. *)
Definition fresh_process : Process :=
  {| heap_next := 0; repositories := [];
     _GLOBAL_NOTES_REPOSITORY := None |}.

(** The dict of the instance the global name is bound to, if it is
    bound. *)
Definition global_store (pr : Process) : option Dict.t :=
  option_map (repo_store pr) (_GLOBAL_NOTES_REPOSITORY pr).

(** The routes of a sequence of requests, run one after the other on one
    store. *)
Fixpoint serve_all (tr : list Event) (w : World) : World :=
  match tr with
  | [] => w
  | e :: tr' => serve_all tr' (snd (dispatch e w))
  end.

(** Every creation of the run draws an id that is not in the store at
    that moment, as [uuid4()] is meant to. *)
Fixpoint creates_fresh (tr : list Event) (w : World) : Prop :=
  match tr with
  | [] => True
  | e :: tr' =>
      match call e with
      | CallCreate u _ => ~ In u (Dict.keys (_store w))
      | _ => True
      end /\ creates_fresh tr' (exec e w)
  end.

(** A version-4 identifier, [00000000-0000-4000-8000-000000000001], and a
    store that already holds a note under it. *)
Definition collision_id : UUID := 0x40008000000000000001%N.


(* ===================================================================== *)
(** ** Facts about dicts *)
(* ===================================================================== *)

Module DictFacts.
Import Dict.

Lemma get_None_iff (d : t) k : get d k = None <-> ~ In k (keys d).
Proof.
  induction d as [|[k' v] d IH]; simpl.
  - tauto.
  - destruct (N.eqb_spec k' k) as [->|Hne].
    + split; [discriminate | intros H; exfalso; apply H; now left].
    + rewrite IH. split; [intros H [E|E]; congruence | tauto].
Qed.

Lemma get_Some_In (d : t) k v : get d k = Some v -> In (k, v) d.
Proof.
  induction d as [|[k' v'] d IH]; simpl; [discriminate|].
  destruct (N.eqb_spec k' k) as [->|Hne]; intros H.
  - injection H as ->. now left.
  - right. auto.
Qed.

Lemma In_keys (d : t) k v : In (k, v) d -> In k (keys d).
Proof. intros H. apply (in_map fst) in H. exact H. Qed.

Lemma In_get (d : t) k v : wf d -> In (k, v) d -> get d k = Some v.
Proof.
  unfold wf. induction d as [|[k' v'] d IH]; simpl; [tauto|].
  intros Hnd [E|Hin]; inversion Hnd as [|? ? Hnotin Hnd']; subst.
  - injection E as -> ->. now rewrite N.eqb_refl.
  - destruct (N.eqb_spec k' k) as [->|Hne]; [|auto].
    exfalso. apply Hnotin. eapply In_keys; eauto.
Qed.

Lemma contains_true_iff (d : t) k : contains d k = true <-> In k (keys d).
Proof.
  unfold contains. destruct (get d k) eqn:E.
  - split; [intros _|reflexivity]. eapply In_keys, get_Some_In; eauto.
  - apply get_None_iff in E. split; [discriminate | tauto].
Qed.

Lemma get_set_eq (d : t) k v : get (set d k v) k = Some v.
Proof.
  induction d as [|[k' v'] d IH]; simpl.
  - now rewrite N.eqb_refl.
  - destruct (N.eqb_spec k' k) as [->|Hne]; simpl.
    + now rewrite N.eqb_refl.
    + destruct (N.eqb_spec k' k); [contradiction | exact IH].
Qed.

Lemma get_set_ne (d : t) k j v : k <> j -> get (set d k v) j = get d j.
Proof.
  intros Hkj. induction d as [|[k' v'] d IH]; simpl.
  - destruct (N.eqb_spec k j); [contradiction | reflexivity].
  - destruct (N.eqb_spec k' k) as [->|Hne]; simpl.
    + destruct (N.eqb_spec k j); [contradiction | reflexivity].
    + now rewrite IH.
Qed.

Lemma keys_set_present (d : t) k v :
  In k (keys d) -> keys (set d k v) = keys d.
Proof.
  induction d as [|[k' v'] d IH]; simpl; [tauto|].
  destruct (N.eqb_spec k' k) as [->|Hne]; simpl; [reflexivity|].
  intros [E|Hin]; [contradiction|]. now rewrite IH.
Qed.

Lemma set_absent (d : t) k v : ~ In k (keys d) -> set d k v = (d ++ [(k, v)])%list.
Proof.
  induction d as [|[k' v'] d IH]; simpl; [reflexivity|].
  intros Hnotin. destruct (N.eqb_spec k' k) as [->|Hne].
  - exfalso. apply Hnotin. now left.
  - rewrite IH; [reflexivity | tauto].
Qed.

Lemma wf_set (d : t) k v : wf d -> wf (set d k v).
Proof.
  unfold wf. intros Hnd.
  destruct (in_dec N.eq_dec k (keys d)) as [Hin|Hnotin].
  - now rewrite keys_set_present.
  - rewrite set_absent by assumption. unfold keys. rewrite map_app. simpl.
    apply NoDup_app; [assumption | repeat constructor; simpl; tauto |].
    intros x Hx [<-|[]]. contradiction.
Qed.

(** [del d[k]] takes out the entry of [k] and nothing else. *)
Lemma del_split (d : t) k v :
  get d k = Some v ->
  exists d1 d2, d = (d1 ++ (k, v) :: d2)%list /\
                del d k = (d1 ++ d2)%list /\ ~ In k (keys d1).
Proof.
  induction d as [|[k' v'] d IH]; simpl; [discriminate|].
  destruct (N.eqb_spec k' k) as [->|Hne]; intros H.
  - injection H as ->. exists [], d. simpl. tauto.
  - destruct (IH H) as (d1 & d2 & -> & Hdel & Hnotin).
    exists ((k', v') :: d1), d2. simpl. rewrite Hdel.
    repeat split. intros [E|E]; [congruence | contradiction].
Qed.

Lemma del_absent (d : t) k : ~ In k (keys d) -> del d k = d.
Proof.
  induction d as [|[k' v'] d IH]; simpl; [reflexivity|].
  intros Hnotin. destruct (N.eqb_spec k' k) as [->|Hne].
  - exfalso. apply Hnotin. now left.
  - rewrite IH; [reflexivity | tauto].
Qed.

Lemma keys_del_incl (d : t) k x : In x (keys (del d k)) -> In x (keys d).
Proof.
  induction d as [|[k' v'] d IH]; simpl; [tauto|].
  destruct (N.eqb_spec k' k) as [->|Hne]; simpl; [tauto|].
  intros [E|Hin]; [now left | right; auto].
Qed.

Lemma wf_del (d : t) k : wf d -> wf (del d k).
Proof.
  unfold wf. induction d as [|[k' v'] d IH]; simpl; [trivial|].
  intros Hnd. inversion Hnd as [|? ? Hnotin Hnd']; subst.
  destruct (N.eqb_spec k' k) as [->|Hne]; simpl; [assumption|].
  constructor; [|auto]. intros Hin. apply Hnotin.
  eapply keys_del_incl; eauto.
Qed.

Lemma get_del_eq (d : t) k : wf d -> get (del d k) k = None.
Proof.
  unfold wf. induction d as [|[k' v'] d IH]; simpl; [reflexivity|].
  intros Hnd. inversion Hnd as [|? ? Hnotin Hnd']; subst.
  destruct (N.eqb_spec k' k) as [->|Hne]; simpl.
  - now apply get_None_iff.
  - destruct (N.eqb_spec k' k); [contradiction | auto].
Qed.

Lemma get_del_ne (d : t) k j : k <> j -> get (del d k) j = get d j.
Proof.
  intros Hkj. induction d as [|[k' v'] d IH]; simpl; [reflexivity|].
  destruct (N.eqb_spec k' k) as [->|Hne]; simpl.
  - destruct (N.eqb_spec k j); [contradiction | reflexivity].
  - now rewrite IH.
Qed.

Lemma In_values_get (d : t) o :
  wf d -> In o (values d) -> exists k, get d k = Some o.
Proof.
  intros Hwf Hin. apply in_map_iff in Hin as [[k v] [E Hin]].
  simpl in E. subst v. exists k. now apply In_get.
Qed.

Lemma get_In_values (d : t) k o : get d k = Some o -> In o (values d).
Proof.
  intros H. apply get_Some_In in H. apply (in_map snd) in H. exact H.
Qed.
End DictFacts.

(* ===================================================================== *)
(** ** Facts about [sorted] *)
(* ===================================================================== *)

Section SortedFacts.
Context {A : Type} (key : A -> Z).

Lemma insert_by_perm x l : Permutation (insert_by key x l) (x :: l).
Proof.
  induction l as [|y l IH]; simpl; [reflexivity|].
  destruct (key x <=? key y); [reflexivity|].
  rewrite IH. apply perm_swap.
Qed.

Lemma sorted_perm l : Permutation (sorted key l) l.
Proof.
  induction l as [|x l IH]; simpl; [reflexivity|].
  rewrite insert_by_perm. now constructor.
Qed.

Lemma insert_by_hd x y l :
  key y <= key x -> HdRel (key_le key) y l -> HdRel (key_le key) y (insert_by key x l).
Proof.
  intros Hyx Hhd. destruct l as [|z l]; simpl.
  - now constructor.
  - destruct (key x <=? key z); constructor; [exact Hyx|].
    now inversion Hhd.
Qed.

Lemma insert_by_sorted x l :
  Sorted (key_le key) l -> Sorted (key_le key) (insert_by key x l).
Proof.
  induction 1 as [|y l Hs IH Hhd]; simpl.
  - repeat constructor.
  - destruct (Z.leb_spec (key x) (key y)) as [Hle|Hgt].
    + constructor; [now constructor | now constructor].
    + constructor; [exact IH|]. apply insert_by_hd; [unfold key_le|]; auto.
      lia.
Qed.

Lemma sorted_sorted l : Sorted (key_le key) (sorted key l).
Proof.
  induction l as [|x l IH]; simpl; [constructor|].
  now apply insert_by_sorted.
Qed.

Lemma sorted_strongly l : StronglySorted (key_le key) (sorted key l).
Proof.
  apply Sorted_StronglySorted; [|apply sorted_sorted].
  intros a b c. unfold key_le. lia.
Qed.

(** Elements with the same key come out in the order they went in. *)
Lemma insert_by_filter t x l :
  filter (fun a => key a =? t) (insert_by key x l) =
  filter (fun a => key a =? t) (x :: l).
Proof.
  induction l as [|y l IH]; simpl; [reflexivity|].
  destruct (Z.leb_spec (key x) (key y)) as [Hle|Hgt]; [reflexivity|].
  simpl. rewrite IH. simpl.
  destruct (Z.eqb_spec (key x) t) as [Ex|Nx]; [|reflexivity].
  destruct (Z.eqb_spec (key y) t) as [Ey|Ny]; [lia | reflexivity].
Qed.

Lemma sorted_stable t l :
  filter (fun a => key a =? t) (sorted key l) =
  filter (fun a => key a =? t) l.
Proof.
  induction l as [|x l IH]; simpl; [reflexivity|].
  rewrite insert_by_filter. simpl. now rewrite IH.
Qed.
End SortedFacts.

(* ===================================================================== *)
(** ** The repository operations, case by case *)
(* ===================================================================== *)

Lemma get_note_found w i o :
  Dict.get (_store w) i = Some o ->
  NotesRepository.get_note i w = (Ok o, w).
Proof.
  intros H. unfold NotesRepository.get_note, bind, store_get. now rewrite H.
Qed.

Lemma get_note_missing w i :
  Dict.get (_store w) i = None ->
  NotesRepository.get_note i w =
  (Raise (NotFoundError (NotesRepository.not_found_msg i)), w).
Proof.
  intros H. unfold NotesRepository.get_note, bind, store_get. now rewrite H.
Qed.

Lemma get_note_world w i : snd (NotesRepository.get_note i w) = w.
Proof.
  destruct (Dict.get (_store w) i) eqn:E.
  - now rewrite (get_note_found _ _ _ E).
  - now rewrite (get_note_missing _ _ E).
Qed.

Lemma get_note_inv w i o w' :
  NotesRepository.get_note i w = (Ok o, w') ->
  Dict.get (_store w) i = Some o /\ w' = w.
Proof.
  destruct (Dict.get (_store w) i) eqn:E.
  - rewrite (get_note_found _ _ _ E). intros H. now inversion H.
  - rewrite (get_note_missing _ _ E). discriminate.
Qed.

Lemma update_note_missing now w i p :
  Dict.get (_store w) i = None ->
  NotesRepository.update_note now i p w =
  (Raise (NotFoundError (NotesRepository.not_found_msg i)), w).
Proof.
  intros H. unfold NotesRepository.update_note, bind.
  now rewrite (get_note_missing _ _ H).
Qed.

Lemma update_note_nothing now w i o :
  Dict.get (_store w) i = Some o ->
  NotesRepository.update_note now i (NoteUpdate.mk None None) w =
  (Raise (ValidationError NotesRepository.at_least_one_msg), w).
Proof.
  intros H. unfold NotesRepository.update_note, bind.
  now rewrite (get_note_found _ _ _ H).
Qed.

Lemma update_note_some now w i o p :
  Dict.get (_store w) i = Some o ->
  p <> NoteUpdate.mk None None ->
  NotesRepository.update_note now i p w =
  (Ok (updated_obj now p w o), updated_world now i p w o).
Proof.
  intros H Hp. unfold NotesRepository.update_note, bind.
  rewrite (get_note_found _ _ _ H).
  destruct p as [[t|] [c|]]; try reflexivity. now elim Hp.
Qed.

Lemma update_note_inv now w i p o' w' :
  NotesRepository.update_note now i p w = (Ok o', w') ->
  exists o, Dict.get (_store w) i = Some o /\
            o' = updated_obj now p w o /\ w' = updated_world now i p w o.
Proof.
  destruct (Dict.get (_store w) i) as [o|] eqn:E.
  - destruct p as [[t|] [c|]];
      try (rewrite (update_note_some now w i o _ E) by discriminate;
           intros H; inversion H; eauto).
    rewrite (update_note_nothing now w i o E). discriminate.
  - rewrite (update_note_missing now w i p E). discriminate.
Qed.

Lemma new_from_create_valid u now p :
  valid_create p = true ->
  Note.new_from_create u now p
  = Some (Note.mk u (NoteCreate.title p) (NoteCreate.content p) now now).
Proof.
  unfold valid_create, Note.new_from_create, Note.construct.
  now intros ->.
Qed.

Lemma new_from_create_invalid u now p :
  valid_create p = false -> Note.new_from_create u now p = None.
Proof.
  unfold valid_create, Note.new_from_create, Note.construct.
  now intros ->.
Qed.

Lemma create_note_eq u now p w :
  valid_create p = true ->
  NotesRepository.create_note u now p w =
  (Ok (created_obj u now p w),
   {| next_oid := S (next_oid w);
      _store := Dict.set (_store w) u (created_obj u now p w) |}).
Proof.
  intros Hp. unfold NotesRepository.create_note.
  now rewrite (new_from_create_valid _ _ _ Hp).
Qed.

Lemma create_note_invalid u now p w :
  valid_create p = false ->
  NotesRepository.create_note u now p w = (Raise PydanticValidationError, w).
Proof.
  intros Hp. unfold NotesRepository.create_note.
  now rewrite (new_from_create_invalid _ _ _ Hp).
Qed.

(** A create either stores the new note or raises and changes nothing. *)
Lemma create_note_cases u now p w :
  (valid_create p = true /\
   NotesRepository.create_note u now p w =
   (Ok (created_obj u now p w),
    {| next_oid := S (next_oid w);
       _store := Dict.set (_store w) u (created_obj u now p w) |})) \/
  (valid_create p = false /\
   NotesRepository.create_note u now p w = (Raise PydanticValidationError, w)).
Proof.
  destruct (valid_create p) eqn:Hp.
  - left. split; [reflexivity | now apply create_note_eq].
  - right. split; [reflexivity | now apply create_note_invalid].
Qed.

Lemma delete_note_missing w i :
  ~ In i (Dict.keys (_store w)) ->
  NotesRepository.delete_note i w =
  (Raise (NotFoundError (NotesRepository.not_found_msg i)), w).
Proof.
  intros H. unfold NotesRepository.delete_note, bind, store_contains.
  destruct (Dict.contains (_store w) i) eqn:E; [|reflexivity].
  apply DictFacts.contains_true_iff in E. contradiction.
Qed.

Lemma delete_note_present w i :
  In i (Dict.keys (_store w)) ->
  NotesRepository.delete_note i w =
  (Ok tt, {| next_oid := next_oid w; _store := Dict.del (_store w) i |}).
Proof.
  intros H. unfold NotesRepository.delete_note, bind, store_contains.
  apply DictFacts.contains_true_iff in H. now rewrite H.
Qed.

Lemma list_notes_eq w :
  NotesRepository.list_notes w =
  (Ok (sorted created (Dict.values (_store w))), w).
Proof. reflexivity. Qed.

(* ===================================================================== *)
(** ** Partial update *)
(* ===================================================================== *)

(** C1. Updating a stored note with a title only succeeds; the note then
    stored under the id has the new title, the old content, id and
    [created_at], and [updated_at] equal to the clock reading of the
    update; every other entry of the store is the same object as before,
    and no id is added, removed or moved. *)
Theorem update_title_only (w : World) (i : UUID) (n : Note.t) (T : string)
    (now : datetime) :
  stored w i = Some n ->
  exists o' w',
    NotesRepository.update_note now i (NoteUpdate.mk (Some T) None) w
      = (Ok o', w') /\
    fields o' = Note.mk (Note.id n) T (Note.content n) (Note.created_at n) now /\
    stored w' i = Some (fields o') /\
    (forall j, j <> i -> Dict.get (_store w') j = Dict.get (_store w) j) /\
    Dict.keys (_store w') = Dict.keys (_store w).
Proof.
  unfold stored. intros Hst.
  destruct (Dict.get (_store w) i) as [o|] eqn:Hget; [|discriminate].
  injection Hst as <-.
  eexists _, _. split.
  - apply update_note_some; [exact Hget | discriminate].
  - simpl. repeat split.
    + now rewrite DictFacts.get_set_eq.
    + intros j Hj. now apply DictFacts.get_set_ne.
    + apply DictFacts.keys_set_present.
      eapply DictFacts.In_keys, DictFacts.get_Some_In; eauto.
Qed.

Lemma update_title_only_witness :
  stored sample_world 1 = Some sample_note /\
  exists o' w',
    NotesRepository.update_note 30 1 (NoteUpdate.mk (Some "A2") None)
      sample_world = (Ok o', w') /\
    fields o' = Note.mk 1 "A2" "B" 10 30.
Proof.
  split; [reflexivity|].
  destruct (update_title_only sample_world 1 sample_note "A2" 30 eq_refl)
    as (o' & w' & Hrun & Hfields & _).
  exists o', w'. split; assumption.
Defined.

(** C2. Updating a stored note with neither field raises the validation
    error and leaves the world, hence the note and every other note, as
    it was. *)
Theorem update_nothing_rejected (w : World) (i : UUID) (n : Note.t)
    (now : datetime) :
  stored w i = Some n ->
  NotesRepository.update_note now i (NoteUpdate.mk None None) w
    = (Raise (ValidationError NotesRepository.at_least_one_msg), w).
Proof.
  unfold stored. intros Hst.
  destruct (Dict.get (_store w) i) as [o|] eqn:Hget; [|discriminate].
  eapply update_note_nothing; eauto.
Qed.

Lemma update_nothing_rejected_witness :
  stored sample_world 1 = Some sample_note /\
  NotesRepository.update_note 30 1 (NoteUpdate.mk None None) sample_world
    = (Raise (ValidationError NotesRepository.at_least_one_msg), sample_world).
Proof.
  split; [reflexivity|].
  apply (update_nothing_rejected sample_world 1 sample_note 30). reflexivity.
Defined.

(** C10. Updating an id that is not in the store with neither field
    raises the not-found error, not the validation error: the lookup comes
    first.  The world is left as it was. *)
Theorem update_absent_is_not_found (w : World) (i : UUID) (now : datetime) :
  ~ In i (Dict.keys (_store w)) ->
  NotesRepository.update_note now i (NoteUpdate.mk None None) w
    = (Raise (NotFoundError (NotesRepository.not_found_msg i)), w).
Proof.
  intros H. apply update_note_missing. now apply DictFacts.get_None_iff.
Qed.

Lemma update_absent_is_not_found_witness :
  ~ In 9%N (Dict.keys (_store sample_world)) /\
  NotesRepository.update_note 30 9 (NoteUpdate.mk None None) sample_world
    = (Raise (NotFoundError (NotesRepository.not_found_msg 9)), sample_world).
Proof.
  assert (H : ~ In 9%N (Dict.keys (_store sample_world))).
  { simpl. intros [E|[E|[]]]; discriminate E. }
  split; [exact H|].
  apply (update_absent_is_not_found sample_world 9 30 H).
Defined.

(* ===================================================================== *)
(** ** Listing *)
(* ===================================================================== *)

(** C3. [list_notes] returns, never raises and leaves the world as it
    was.  Its result holds exactly the objects of the store, each entry
    once; it is ordered by [created_at], and notes with the same
    [created_at] keep the order of the dict, which is insertion order.
    The notes listed are the ones [get_note] finds: an id that was deleted
    or never created contributes nothing. *)
Theorem list_notes_sorted_stable (w : World) :
  Dict.wf (_store w) ->
  exists l,
    NotesRepository.list_notes w = (Ok l, w) /\
    Permutation l (Dict.values (_store w)) /\
    List.length l = List.length (Dict.keys (_store w)) /\
    StronglySorted (key_le created) l /\
    (forall t, filter (fun o => created o =? t) l =
               filter (fun o => created o =? t) (Dict.values (_store w))) /\
    (forall o, In o l <->
               exists i, NotesRepository.get_note i w = (Ok o, w)).
Proof.
  intros Hwf. exists (sorted created (Dict.values (_store w))).
  split; [apply list_notes_eq|].
  assert (Hperm := sorted_perm created (Dict.values (_store w))).
  repeat split.
  - exact Hperm.
  - rewrite (Permutation_length Hperm). unfold Dict.values, Dict.keys.
    now rewrite !length_map.
  - apply sorted_strongly.
  - intros t. apply sorted_stable.
  - intros Hin. apply (Permutation_in _ Hperm) in Hin.
    destruct (DictFacts.In_values_get _ _ Hwf Hin) as [i Hi].
    exists i. now apply get_note_found.
  - intros [i Hi]. apply get_note_inv in Hi as [Hi _].
    apply (Permutation_in _ (Permutation_sym Hperm)).
    eapply DictFacts.get_In_values; eauto.
Qed.

Lemma sample_world_wf : Dict.wf (_store sample_world).
Proof.
  unfold Dict.wf. simpl. repeat constructor; simpl; intuition discriminate.
Qed.

Lemma list_notes_sorted_stable_witness :
  Dict.wf (_store sample_world) /\
  exists l, NotesRepository.list_notes sample_world = (Ok l, sample_world) /\
            List.length l = 2%nat.
Proof.
  split; [exact sample_world_wf|].
  destruct (list_notes_sorted_stable sample_world sample_world_wf)
    as (l & Hrun & _ & Hlen & _).
  exists l. split; [exact Hrun | exact Hlen].
Defined.

(* ===================================================================== *)
(** ** Creation *)
(* ===================================================================== *)




(* ===================================================================== *)
(** ** Lookup and deletion *)
(* ===================================================================== *)

(** C5. [get_note] raises the not-found error exactly when the id is not
    a key of the store, and then leaves the world as it was; when the id
    is a key it returns the object stored under it and leaves the world
    as it was.  After [delete_note] on an id, whether that call removed a
    note or raised, [get_note] on the id raises the not-found error. *)
Theorem get_note_not_found_iff (w : World) (i : UUID) :
  Dict.wf (_store w) ->
  ((exists msg w', NotesRepository.get_note i w = (Raise (NotFoundError msg), w'))
   <-> ~ In i (Dict.keys (_store w))) /\
  (~ In i (Dict.keys (_store w)) ->
   NotesRepository.get_note i w
     = (Raise (NotFoundError (NotesRepository.not_found_msg i)), w)) /\
  (In i (Dict.keys (_store w)) ->
   exists o, Dict.get (_store w) i = Some o /\
             NotesRepository.get_note i w = (Ok o, w)) /\
  (let w' := snd (NotesRepository.delete_note i w) in
   NotesRepository.get_note i w'
     = (Raise (NotFoundError (NotesRepository.not_found_msg i)), w')).
Proof.
  intros Hwf.
  assert (Hmiss : ~ In i (Dict.keys (_store w)) ->
                  NotesRepository.get_note i w
                  = (Raise (NotFoundError (NotesRepository.not_found_msg i)), w)).
  { intros H. apply get_note_missing. now apply DictFacts.get_None_iff. }
  repeat split.
  - intros (msg & w' & Hrun) Hin.
    destruct (Dict.get (_store w) i) as [o|] eqn:E.
    + rewrite (get_note_found _ _ _ E) in Hrun. discriminate.
    + apply DictFacts.get_None_iff in E. contradiction.
  - intros H. eexists _, _. apply Hmiss, H.
  - exact Hmiss.
  - intros Hin. destruct (Dict.get (_store w) i) as [o|] eqn:E.
    + exists o. split; [reflexivity | now apply get_note_found].
    + apply DictFacts.get_None_iff in E. contradiction.
  - destruct (in_dec N.eq_dec i (Dict.keys (_store w))) as [Hin|Hnotin].
    + rewrite (delete_note_present _ _ Hin). simpl.
      apply get_note_missing. simpl. now apply DictFacts.get_del_eq.
    + rewrite (delete_note_missing _ _ Hnotin). simpl. now apply Hmiss.
Qed.

Lemma get_note_not_found_iff_witness :
  Dict.wf (_store sample_world) /\
  NotesRepository.get_note 1
    (snd (NotesRepository.delete_note 1 sample_world))
  = (Raise (NotFoundError (NotesRepository.not_found_msg 1)),
     snd (NotesRepository.delete_note 1 sample_world)).
Proof.
  split; [exact sample_world_wf|].
  apply (get_note_not_found_iff sample_world 1 sample_world_wf).
Defined.

(** C6. [delete_note] on an id that is not a key raises the not-found
    error and leaves the world as it was.  On an id that is a key it
    takes out the entry of that id and no other: the entries before and
    after it stay, in order, and every other id holds the object it held.
    A second [delete_note] on the id then raises the not-found error and
    leaves the world of the first call as it is. *)
Theorem delete_note_removes_one (w : World) (i : UUID) :
  Dict.wf (_store w) ->
  (~ In i (Dict.keys (_store w)) ->
   NotesRepository.delete_note i w
     = (Raise (NotFoundError (NotesRepository.not_found_msg i)), w)) /\
  (In i (Dict.keys (_store w)) ->
   exists w',
     NotesRepository.delete_note i w = (Ok tt, w') /\
     (exists d1 o d2, _store w = (d1 ++ (i, o) :: d2)%list /\
                      _store w' = (d1 ++ d2)%list) /\
     ~ In i (Dict.keys (_store w')) /\
     (forall j, j <> i -> Dict.get (_store w') j = Dict.get (_store w) j) /\
     NotesRepository.delete_note i w'
       = (Raise (NotFoundError (NotesRepository.not_found_msg i)), w')).
Proof.
  intros Hwf. split; [apply delete_note_missing|].
  intros Hin. eexists. split; [now apply delete_note_present|]. simpl.
  assert (Hgone : ~ In i (Dict.keys (Dict.del (_store w) i))).
  { apply DictFacts.get_None_iff. now apply DictFacts.get_del_eq. }
  repeat split.
  - destruct (Dict.get (_store w) i) as [o|] eqn:E.
    + destruct (DictFacts.del_split _ _ _ E) as (d1 & d2 & H1 & H2 & _).
      now exists d1, o, d2.
    + apply DictFacts.get_None_iff in E. contradiction.
  - exact Hgone.
  - intros j Hj. now apply DictFacts.get_del_ne.
  - now apply delete_note_missing.
Qed.

Lemma delete_note_removes_one_witness :
  Dict.wf (_store sample_world) /\
  exists w', NotesRepository.delete_note 1 sample_world = (Ok tt, w') /\
             NotesRepository.delete_note 1 w'
             = (Raise (NotFoundError (NotesRepository.not_found_msg 1)), w').
Proof.
  split; [exact sample_world_wf|].
  destruct (delete_note_removes_one sample_world 1 sample_world_wf)
    as [_ Hpresent].
  destruct Hpresent as (w' & Hrun & _ & _ & _ & Hagain).
  { simpl. now left. }
  exists w'. split; assumption.
Defined.

(* ===================================================================== *)
(** ** Timestamps along a run *)
(* ===================================================================== *)

Lemma Forall_values_set (P : PyObj -> Prop) (d : Dict.t) k v :
  Forall P (Dict.values d) -> P v -> Forall P (Dict.values (Dict.set d k v)).
Proof.
  intros Hd Hv. induction d as [|[k' v'] d IH]; simpl in *.
  - now repeat constructor.
  - inversion Hd; subst.
    destruct (N.eqb k' k); simpl; constructor; auto.
Qed.

Lemma Forall_values_del (P : PyObj -> Prop) (d : Dict.t) k :
  Forall P (Dict.values d) -> Forall P (Dict.values (Dict.del d k)).
Proof.
  intros Hd. induction d as [|[k' v'] d IH]; simpl in *; [constructor|].
  inversion Hd; subst.
  destruct (N.eqb k' k); simpl; [assumption | constructor; auto].
Qed.

Lemma stamps_ok_later t t' w : t <= t' -> stamps_ok t w -> stamps_ok t' w.
Proof.
  intros Hle. unfold stamps_ok. apply Forall_impl. intros o [H1 H2].
  split; lia.
Qed.

Lemma stamps_ok_stored t w i n :
  stamps_ok t w -> stored w i = Some n ->
  Note.created_at n <= Note.updated_at n /\ Note.updated_at n <= t.
Proof.
  unfold stamps_ok, stored. intros Hok Hst.
  destruct (Dict.get (_store w) i) as [o|] eqn:E; [|discriminate].
  injection Hst as <-. rewrite Forall_forall in Hok. apply Hok.
  eapply DictFacts.get_In_values; eauto.
Qed.

(** An update either stores the copy or raises and changes nothing. *)
Lemma update_note_cases now w i p :
  (exists o, Dict.get (_store w) i = Some o /\
             NotesRepository.update_note now i p w
             = (Ok (updated_obj now p w o), updated_world now i p w o)) \/
  (exists e, NotesRepository.update_note now i p w = (Raise e, w)).
Proof.
  destruct (Dict.get (_store w) i) as [o|] eqn:E.
  - destruct p as [[t|] [c|]];
      try (left; exists o; split; [reflexivity|];
           apply update_note_some; [exact E | discriminate]).
    right. eexists. eapply update_note_nothing; eauto.
  - right. eexists. now apply update_note_missing.
Qed.

Lemma exec_stamps_ok t e w :
  t <= at_time e -> stamps_ok t w -> stamps_ok (at_time e) (exec e w).
Proof.
  intros Hle Hok. apply (stamps_ok_later _ _ _ Hle) in Hok.
  unfold exec. destruct (call e) as [|u p|i|i p|i].
  - exact Hok.
  - destruct (create_note_cases u (at_time e) p w) as [[_ ->]|[_ ->]];
      [|exact Hok].
    unfold stamps_ok in *. simpl.
    apply Forall_values_set; [exact Hok|]. simpl. lia.
  - now rewrite get_note_world.
  - destruct (update_note_cases (at_time e) w i p)
      as [(o & Hget & ->)|(x & ->)]; [|exact Hok].
    unfold stamps_ok in *. simpl. apply Forall_values_set; [exact Hok|].
    simpl. rewrite Forall_forall in Hok.
    destruct (Hok o (DictFacts.get_In_values _ _ _ Hget)). lia.
  - destruct (in_dec N.eq_dec i (Dict.keys (_store w))) as [Hin|Hnotin].
    + rewrite (delete_note_present _ _ Hin). unfold stamps_ok in *. simpl.
      now apply Forall_values_del.
    + now rewrite (delete_note_missing _ _ Hnotin).
Qed.

Lemma run_stamps_ok tr1 : forall rest t0 w,
  clock_nondecreasing t0 (tr1 ++ rest) -> stamps_ok t0 w ->
  exists t, stamps_ok t (run tr1 w) /\ clock_nondecreasing t rest.
Proof.
  induction tr1 as [|e tr1 IH]; simpl; intros rest t0 w Hclock Hok.
  - eauto.
  - destruct Hclock as [Hle Hclock].
    apply (IH rest (at_time e)); [exact Hclock|].
    now apply exec_stamps_ok with (t := t0).
Qed.

Lemma update_stamps_sorted i tr : forall t0 w,
  clock_nondecreasing t0 tr ->
  StronglySorted Z.le (update_stamps i tr w) /\
  Forall (fun s => t0 <= s) (update_stamps i tr w).
Proof.
  induction tr as [|e tr IH]; simpl; intros t0 w Hclock.
  - split; constructor.
  - destruct Hclock as [Hle Hclock].
    destruct (IH (at_time e) (exec e w) Hclock) as [Hs Hall].
    assert (Hall' : Forall (fun s => t0 <= s)
                           (update_stamps i tr (exec e w))).
    { eapply Forall_impl; [|exact Hall]. simpl. intros; lia. }
    destruct (call e) as [|u p|j|j p|j]; simpl; auto.
    destruct (N.eqb j i); simpl; auto.
    destruct (update_note_cases (at_time e) w j p)
      as [(o & Hget & ->)|(x & ->)]; simpl; auto.
    split; constructor; auto.
Qed.

(** C8, amended.  Along every sequence of repository calls from the empty
    store, read on a clock that never steps back (the timestamps are
    [datetime.utcnow()] readings, and the repository adds no ordering of
    its own to them): every stored note has
    [created_at <= updated_at]; the [updated_at] values set by the
    successive successful updates of an id never decrease; and each
    successful update sets an [updated_at] that is at least the one the
    note had. *)
Theorem timestamps_ordered (t0 : datetime) (tr : list Event) :
  clock_nondecreasing t0 tr ->
  (forall i n, stored (run tr empty_world) i = Some n ->
               Note.created_at n <= Note.updated_at n) /\
  (forall i, StronglySorted Z.le (update_stamps i tr empty_world)) /\
  (forall tr1 e tr2 i p n o' w',
     tr = (tr1 ++ e :: tr2)%list -> call e = CallUpdate i p ->
     stored (run tr1 empty_world) i = Some n ->
     NotesRepository.update_note (at_time e) i p (run tr1 empty_world)
       = (Ok o', w') ->
     Note.updated_at n <= Note.updated_at (fields o')).
Proof.
  intros Hclock.
  assert (Hempty : stamps_ok t0 empty_world) by constructor.
  repeat split.
  - intros i n Hst.
    destruct (run_stamps_ok tr [] t0 empty_world) as (t & Hok & _);
      [now rewrite app_nil_r | exact Hempty |].
    eapply stamps_ok_stored; eauto.
  - intros i. now apply (update_stamps_sorted i tr t0).
  - intros tr1 e tr2 i p n o' w' -> Hcall Hst Hrun.
    destruct (run_stamps_ok tr1 (e :: tr2) t0 empty_world Hclock Hempty)
      as (t & Hok & Hle & _).
    destruct (stamps_ok_stored _ _ _ _ Hok Hst) as [_ Hn].
    apply update_note_inv in Hrun as (o & _ & -> & _). simpl. lia.
Qed.

Lemma timestamps_ordered_witness :
  clock_nondecreasing 0 sample_trace /\
  StronglySorted Z.le (update_stamps 1 sample_trace empty_world).
Proof.
  assert (H : clock_nondecreasing 0 sample_trace) by (simpl; lia).
  split; [exact H|].
  apply (timestamps_ordered 0 sample_trace H).
Defined.

(** C8, as stated, fails: the timestamps are the readings of
    [datetime.utcnow()] as they come.  A note created at reading 10 and
    updated at reading 5, the clock having been set back in between, is
    stored with [updated_at] before [created_at]. *)
Lemma updated_at_may_precede_created_at :
  ~ (forall (tr : list Event) (i : UUID) (n : Note.t),
       stored (run tr empty_world) i = Some n ->
       Note.created_at n <= Note.updated_at n).
Proof.
  intros H.
  specialize (H [mkEvent 10 (CallCreate collision_id (NoteCreate.mk "A" "B"));
                 mkEvent 5 (CallUpdate collision_id
                              (NoteUpdate.mk (Some "A2") None))]
                collision_id _ eq_refl).
  simpl in H. lia.
Qed.

(* ===================================================================== *)
(** ** What every reachable store satisfies *)
(* ===================================================================== *)

Lemma Forall_entries_set (P : UUID * PyObj -> Prop) (d : Dict.t) k v :
  Forall P d -> P (k, v) -> Forall P (Dict.set d k v).
Proof.
  intros Hd Hv. induction d as [|[k' v'] d IH]; simpl.
  - now repeat constructor.
  - inversion Hd; subst.
    destruct (N.eqb k' k); constructor; auto.
Qed.

Lemma Forall_entries_del (P : UUID * PyObj -> Prop) (d : Dict.t) k :
  Forall P d -> Forall P (Dict.del d k).
Proof.
  intros Hd. induction d as [|[k' v'] d IH]; simpl; [constructor|].
  inversion Hd; subst.
  destruct (N.eqb k' k); [assumption | constructor; auto].
Qed.

Lemma oids_allocated_alloc w d :
  Forall (fun o => (oid o < next_oid w)%nat) (Dict.values d) ->
  Forall (fun o => (oid o < S (next_oid w))%nat) (Dict.values d).
Proof. apply Forall_impl. intros o H. lia. Qed.

Lemma exec_store_inv e w : store_inv w -> store_inv (exec e w).
Proof.
  unfold store_inv, oids_allocated, keyed_by_id.
  intros (Hwf & Hoid & Hkey).
  unfold exec. destruct (call e) as [|u p|i|i p|i].
  - auto.
  - destruct (create_note_cases u (at_time e) p w) as [[_ ->]|[_ ->]];
      [|auto].
    simpl. repeat split.
    + now apply DictFacts.wf_set.
    + apply Forall_values_set; [now apply oids_allocated_alloc | simpl; lia].
    + now apply Forall_entries_set.
  - rewrite get_note_world. auto.
  - destruct (update_note_cases (at_time e) w i p)
      as [(o & Hget & ->)|(x & ->)]; [|auto].
    simpl. repeat split.
    + now apply DictFacts.wf_set.
    + apply Forall_values_set; [now apply oids_allocated_alloc | simpl; lia].
    + apply Forall_entries_set; [exact Hkey|]. simpl.
      rewrite Forall_forall in Hkey.
      apply (Hkey (i, o)). now apply DictFacts.get_Some_In.
  - destruct (in_dec N.eq_dec i (Dict.keys (_store w))) as [Hin|Hnotin].
    + rewrite (delete_note_present _ _ Hin). simpl. repeat split.
      * now apply DictFacts.wf_del.
      * now apply Forall_values_del.
      * now apply Forall_entries_del.
    + rewrite (delete_note_missing _ _ Hnotin). auto.
Qed.

Lemma run_store_inv tr : forall w, store_inv w -> store_inv (run tr w).
Proof.
  induction tr as [|e tr IH]; simpl; intros w Hinv; [exact Hinv|].
  now apply IH, exec_store_inv.
Qed.

Lemma reachable_store_inv tr : store_inv (run tr empty_world).
Proof.
  apply run_store_inv. unfold store_inv, oids_allocated, keyed_by_id.
  simpl. repeat split; constructor.
Qed.

(* ===================================================================== *)
(** ** Who else holds the stored objects *)
(* ===================================================================== *)

Lemma assign_self o f : assign o f o = {| oid := oid o; fields := f (fields o) |}.
Proof. unfold assign. now rewrite Nat.eqb_refl. Qed.

Lemma assign_other o f v : oid v <> oid o -> assign o f v = v.
Proof.
  intros H. unfold assign. destruct (Nat.eqb_spec (oid v) (oid o)); tauto.
Qed.

Lemma get_setattr w o f i :
  Dict.get (_store (snd (setattr o f w))) i
  = option_map (assign o f) (Dict.get (_store w) i).
Proof.
  simpl. induction (_store w) as [|[k v] d IH]; simpl; [reflexivity|].
  destruct (N.eqb k i); [reflexivity | exact IH].
Qed.

(** Assigning through an object that is in the store under [i] changes
    what [get_note i] returns. *)
Lemma setattr_seen w o f i :
  Dict.get (_store w) i = Some o ->
  fst (NotesRepository.get_note i (snd (setattr o f w)))
  = Ok {| oid := oid o; fields := f (fields o) |}.
Proof.
  intros Hget. erewrite get_note_found; [reflexivity|].
  rewrite get_setattr, Hget. simpl. now rewrite assign_self.
Qed.

(** C9, as stated, fails: the note [create_note] returned is the stored
    object, and a title assigned through it is the title [get_note]
    returns afterwards. *)
Lemma returned_note_is_no_copy :
  ~ (forall (w w' : World) (u : UUID) (now : datetime) (p : NoteCreate.t)
            (o o' : PyObj) (f : Note.t -> Note.t),
       NotesRepository.create_note u now p w = (Ok o, w') ->
       fst (NotesRepository.get_note u (snd (setattr o f w'))) = Ok o' ->
       fields o' = fields o).
Proof.
  intros H.
  specialize (H empty_world _ 1%N 10 (NoteCreate.mk "A" "B") _ _
                (set_title "X") eq_refl eq_refl).
  discriminate H.
Qed.

(** C9, amended.  The repository hands out the stored objects themselves:
    an attribute assigned through a note obtained from [get_note],
    [create_note], [update_note] or out of the list of [list_notes] is
    what [get_note] returns for the id of that note afterwards.  A
    successful update puts a newly built object, a copy, into the store,
    none of the objects stored before: assigning through the note
    obtained before that update no longer reaches the store. *)
Theorem returned_notes_alias_store (w : World) :
  store_inv w ->
  (forall i o f,
     NotesRepository.get_note i w = (Ok o, w) ->
     fst (NotesRepository.get_note i (snd (setattr o f w)))
     = Ok {| oid := oid o; fields := f (fields o) |}) /\
  (forall u now p o w' f,
     NotesRepository.create_note u now p w = (Ok o, w') ->
     fst (NotesRepository.get_note (Note.id (fields o))
            (snd (setattr o f w')))
     = Ok {| oid := oid o; fields := f (fields o) |}) /\
  (forall now i p o w' f,
     NotesRepository.update_note now i p w = (Ok o, w') ->
     fst (NotesRepository.get_note i (snd (setattr o f w')))
     = Ok {| oid := oid o; fields := f (fields o) |}) /\
  (forall l o f,
     NotesRepository.list_notes w = (Ok l, w) -> In o l ->
     fst (NotesRepository.get_note (Note.id (fields o))
            (snd (setattr o f w)))
     = Ok {| oid := oid o; fields := f (fields o) |}) /\
  (forall now i p o o' w' f,
     NotesRepository.get_note i w = (Ok o, w) ->
     NotesRepository.update_note now i p w = (Ok o', w') ->
     Forall (fun v => oid v <> oid o') (Dict.values (_store w)) /\
     fst (NotesRepository.get_note i (snd (setattr o f w'))) = Ok o').
Proof.
  intros (Hwf & Hoid & Hkey).
  split; [|split; [|split; [|split]]].
  - intros i o f Hrun. apply get_note_inv in Hrun as [Hget _].
    now apply setattr_seen.
  - intros u now p o w' f Hrun.
    destruct (create_note_cases u now p w) as [[_ E]|[_ E]];
      rewrite E in Hrun; [|discriminate].
    inversion Hrun; subst. apply setattr_seen. simpl.
    apply DictFacts.get_set_eq.
  - intros now i p o w' f Hrun.
    apply update_note_inv in Hrun as (o0 & _ & -> & ->).
    apply setattr_seen. simpl. apply DictFacts.get_set_eq.
  - intros l o f Hrun Hin. rewrite list_notes_eq in Hrun.
    inversion Hrun; subst.
    apply (Permutation_in _ (sorted_perm created _)) in Hin.
    apply in_map_iff in Hin as ([k v] & Hv & Hin). simpl in Hv. subst v.
    unfold keyed_by_id in Hkey. rewrite Forall_forall in Hkey.
    assert (Hk := Hkey (k, o) Hin). simpl in Hk. rewrite Hk.
    apply setattr_seen. now apply DictFacts.In_get.
  - intros now i p o o' w' f Hold Hrun.
    apply get_note_inv in Hold as [Hold _].
    apply update_note_inv in Hrun as (o0 & Hget & -> & ->).
    unfold oids_allocated in Hoid. split.
    + eapply Forall_impl; [|exact Hoid]. simpl. intros v Hv. lia.
    + erewrite get_note_found; [reflexivity|].
      rewrite get_setattr. simpl. rewrite DictFacts.get_set_eq. simpl.
      rewrite assign_other; [reflexivity|]. simpl.
      rewrite Forall_forall in Hoid.
      specialize (Hoid o (DictFacts.get_In_values _ _ _ Hold)). lia.
Qed.

Lemma sample_world_oids : oids_allocated sample_world.
Proof. unfold oids_allocated. simpl. repeat constructor. Qed.

Lemma sample_world_inv : store_inv sample_world.
Proof.
  split; [exact sample_world_wf|]. split; [exact sample_world_oids|].
  unfold keyed_by_id. simpl. repeat constructor.
Qed.

Lemma returned_notes_alias_store_witness :
  store_inv sample_world /\
  fst (NotesRepository.get_note 1
         (snd (setattr (mkObj 0 sample_note) (set_title "X") sample_world)))
  = Ok (mkObj 0 (set_title "X" sample_note)).
Proof.
  split; [exact sample_world_inv|].
  apply (returned_notes_alias_store sample_world sample_world_inv).
  reflexivity.
Defined.

(* ===================================================================== *)
(** ** From repository outcomes to responses *)
(* ===================================================================== *)

(** The message of the not-found error names the id asked for. *)
Lemma not_found_msg_names_id i :
  NotesRepository.not_found_msg i
  = "Note with id " ++ uuid_str i ++ " not found".
Proof. reflexivity. Qed.

Lemma GET_notes_ok w :
  App.GET_notes w
  = ({| status := 200;
        body := Json (notes_json (sorted created (Dict.values (_store w)))) |},
     w).
Proof. reflexivity. Qed.

Lemma POST_notes_created u now p w :
  valid_create p = true ->
  App.POST_notes u now p w
  = ({| status := 201;
        body := Json (note_json (Note.mk u (NoteCreate.title p)
                                   (NoteCreate.content p) now now)) |},
     snd (NotesRepository.create_note u now p w)).
Proof.
  intros Hp. unfold App.POST_notes, serve_value, Routes.create_note, try_except.
  now rewrite Hp, (create_note_eq _ _ _ _ Hp).
Qed.

(** A body that does not satisfy the payload model is refused before the
    handler runs. *)
Lemma POST_notes_refused u now p w :
  valid_create p = false ->
  App.POST_notes u now p w = ({| status := 422; body := RequestErrors |}, w).
Proof. intros Hp. unfold App.POST_notes, serve_value. now rewrite Hp. Qed.

Lemma PUT_note_refused now i p w :
  valid_update p = false ->
  App.PUT_note now i p w = ({| status := 422; body := RequestErrors |}, w).
Proof. intros Hp. unfold App.PUT_note, serve_value. now rewrite Hp. Qed.

Lemma GET_note_ok w i o :
  Dict.get (_store w) i = Some o ->
  App.GET_note i w
  = ({| status := 200; body := Json (note_json (fields o)) |}, w).
Proof.
  intros H. unfold App.GET_note, serve_value, Routes.get_note, try_except.
  now rewrite (get_note_found _ _ _ H).
Qed.

Lemma GET_note_not_found w i :
  ~ In i (Dict.keys (_store w)) ->
  App.GET_note i w
  = ({| status := 404;
        body := detail_body (NotesRepository.not_found_msg i) |}, w).
Proof.
  intros H. apply DictFacts.get_None_iff in H.
  unfold App.GET_note, serve_value, Routes.get_note, try_except.
  now rewrite (get_note_missing _ _ H).
Qed.

Lemma PUT_note_ok now w i o p :
  valid_update p = true ->
  Dict.get (_store w) i = Some o -> p <> NoteUpdate.mk None None ->
  App.PUT_note now i p w
  = ({| status := 200;
        body := Json (note_json (fields (updated_obj now p w o))) |},
     updated_world now i p w o).
Proof.
  intros Hv H Hp.
  unfold App.PUT_note, serve_value, Routes.update_note, try_except.
  now rewrite Hv, (update_note_some _ _ _ _ _ H Hp).
Qed.

Lemma PUT_note_not_found now w i p :
  valid_update p = true ->
  ~ In i (Dict.keys (_store w)) ->
  App.PUT_note now i p w
  = ({| status := 404;
        body := detail_body (NotesRepository.not_found_msg i) |}, w).
Proof.
  intros Hv H. apply DictFacts.get_None_iff in H.
  unfold App.PUT_note, serve_value, Routes.update_note, try_except.
  now rewrite Hv, (update_note_missing _ _ _ _ H).
Qed.

Lemma PUT_note_nothing now w i :
  In i (Dict.keys (_store w)) ->
  App.PUT_note now i (NoteUpdate.mk None None) w
  = ({| status := 400;
        body := detail_body NotesRepository.at_least_one_msg |}, w).
Proof.
  intros H. destruct (Dict.get (_store w) i) as [o|] eqn:E.
  - unfold App.PUT_note, serve_value, Routes.update_note, try_except.
    now rewrite (update_note_nothing _ _ _ _ E).
  - apply DictFacts.get_None_iff in E. contradiction.
Qed.

Lemma DELETE_note_not_found w i :
  ~ In i (Dict.keys (_store w)) ->
  App.DELETE_note i w
  = ({| status := 404;
        body := detail_body (NotesRepository.not_found_msg i) |}, w).
Proof.
  intros H.
  unfold App.DELETE_note, serve_response, Routes.delete_note, bind, try_except.
  now rewrite (delete_note_missing _ _ H).
Qed.

(** A successful delete answers 204, and the body is what
    [JSONResponse] renders for [content=None]: the JSON text [null]. *)
Lemma DELETE_note_done w i :
  In i (Dict.keys (_store w)) ->
  App.DELETE_note i w
  = ({| status := 204; body := Json JNull |},
     {| next_oid := next_oid w; _store := Dict.del (_store w) i |}).
Proof.
  intros H.
  unfold App.DELETE_note, serve_response, Routes.delete_note, bind, try_except.
  now rewrite (delete_note_present _ _ H).
Qed.

(** C7. The responses on the sample store.  Not found is 404 with the
    message naming the id, an update without fields is 400 with the
    at-least-one-field message, get, update and list succeed with 200 and
    create with 201, each with the note representation.  A successful
    delete is 204, but its body is the four characters [null], not the
    empty body the handler's comment announces. *)
Theorem delete_response_body_is_null :
  fst (App.DELETE_note 1 sample_world)
    = {| status := 204; body := Json JNull |} /\
  body (fst (App.DELETE_note 1 sample_world)) <> NoBody /\
  fst (App.DELETE_note 9 sample_world)
    = {| status := 404;
         body := detail_body
           "Note with id 00000000-0000-0000-0000-000000000009 not found" |} /\
  fst (App.GET_note 9 sample_world)
    = {| status := 404;
         body := detail_body
           "Note with id 00000000-0000-0000-0000-000000000009 not found" |} /\
  fst (App.PUT_note 30 9 (NoteUpdate.mk None None) sample_world)
    = {| status := 404;
         body := detail_body
           "Note with id 00000000-0000-0000-0000-000000000009 not found" |} /\
  fst (App.PUT_note 30 1 (NoteUpdate.mk None None) sample_world)
    = {| status := 400;
         body := detail_body
           "At least one of 'title' or 'content' must be provided" |} /\
  fst (App.GET_note 1 sample_world)
    = {| status := 200; body := Json (note_json sample_note) |} /\
  fst (App.PUT_note 30 1 (NoteUpdate.mk (Some "A2") None) sample_world)
    = {| status := 200;
         body := Json (note_json (Note.mk 1 "A2" "B" 10 30)) |} /\
  fst (App.POST_notes 3 30 (NoteCreate.mk "E" "F") sample_world)
    = {| status := 201;
         body := Json (note_json (Note.mk 3 "E" "F" 30 30)) |} /\
  status (fst (App.GET_notes sample_world)) = 200.
Proof.
  repeat split; try reflexivity.
  rewrite (DELETE_note_done sample_world 1); [discriminate | simpl; now left].
Qed.

(* ===================================================================== *)
(** ** Calls that raise, calls that write *)
(* ===================================================================== *)

(** X1. A repository call that raises leaves the world exactly as it was.
    These are the errors that occur: [get_note] and [delete_note] raise
    the not-found error, for an id that is not in the store;
    [update_note] raises it for such an id too, and raises the validation
    error of the repository for a stored id with an empty payload;
    [create_note] raises pydantic's validation error, for a payload whose
    title or content violates the constraints of the [Note] model;
    [list_notes] never raises. *)
Theorem raising_call_changes_nothing (e : Event) (w : World) (x : exn) :
  raised e w = Some x ->
  exec e w = w /\
  match call e with
  | CallList => False
  | CallCreate _ p =>
      x = PydanticValidationError /\ valid_create p = false
  | CallGet i | CallDelete i =>
      x = NotFoundError (NotesRepository.not_found_msg i) /\
      ~ In i (Dict.keys (_store w))
  | CallUpdate i p =>
      (x = NotFoundError (NotesRepository.not_found_msg i) /\
       ~ In i (Dict.keys (_store w))) \/
      (x = ValidationError NotesRepository.at_least_one_msg /\
       In i (Dict.keys (_store w)) /\ p = NoteUpdate.mk None None)
  end.
Proof.
  unfold raised, exec, exn_of. destruct (call e) as [|u p|i|i p|i].
  - discriminate.
  - destruct (create_note_cases u (at_time e) p w) as [[Hp ->]|[Hp ->]].
    + discriminate.
    + simpl. intros H. injection H as <-. auto.
  - destruct (Dict.get (_store w) i) as [o|] eqn:E.
    + rewrite (get_note_found _ _ _ E). discriminate.
    + rewrite (get_note_missing _ _ E). simpl. intros H. injection H as <-.
      repeat split. now apply DictFacts.get_None_iff.
  - destruct (Dict.get (_store w) i) as [o|] eqn:E.
    + assert (Hin : In i (Dict.keys (_store w)))
        by (eapply DictFacts.In_keys, DictFacts.get_Some_In; eauto).
      destruct p as [[t|] [c|]];
        try (rewrite (update_note_some _ _ _ o _ E) by discriminate;
             discriminate).
      rewrite (update_note_nothing _ _ _ _ E). simpl. intros H.
      injection H as <-. split; [reflexivity|]. right. auto.
    + rewrite (update_note_missing _ _ _ _ E). simpl. intros H.
      injection H as <-. split; [reflexivity|]. left.
      split; [reflexivity|]. now apply DictFacts.get_None_iff.
  - destruct (in_dec N.eq_dec i (Dict.keys (_store w))) as [Hin|Hnotin].
    + rewrite (delete_note_present _ _ Hin). discriminate.
    + rewrite (delete_note_missing _ _ Hnotin). simpl. intros H.
      injection H as <-. auto.
Qed.

Lemma raising_call_changes_nothing_witness :
  raised (mkEvent 30 (CallDelete 9)) sample_world
    = Some (NotFoundError (NotesRepository.not_found_msg 9)) /\
  exec (mkEvent 30 (CallDelete 9)) sample_world = sample_world.
Proof.
  split; [reflexivity|].
  apply (raising_call_changes_nothing (mkEvent 30 (CallDelete 9))
           sample_world _ eq_refl).
Defined.

Lemma exec_get_other (e : Event) (w : World) (j : UUID) :
  written_id (call e) <> Some j ->
  Dict.get (_store (exec e w)) j = Dict.get (_store w) j.
Proof.
  unfold exec. destruct (call e) as [|u p|i|i p|i]; simpl; intros Hj.
  - reflexivity.
  - destruct (create_note_cases u (at_time e) p w) as [[_ ->]|[_ ->]];
      [|reflexivity].
    simpl. apply DictFacts.get_set_ne. congruence.
  - now rewrite get_note_world.
  - destruct (update_note_cases (at_time e) w i p)
      as [(o & Hget & ->)|(x & ->)]; [|reflexivity].
    simpl. apply DictFacts.get_set_ne. congruence.
  - destruct (in_dec N.eq_dec i (Dict.keys (_store w))) as [Hin|Hnotin].
    + rewrite (delete_note_present _ _ Hin). simpl.
      apply DictFacts.get_del_ne. congruence.
    + now rewrite (delete_note_missing _ _ Hnotin).
Qed.

(** X2. A call touches one id at most: whatever the call and whether it
    returns or raises, every id other than the one it writes under holds
    the same object afterwards as before, and is in the store afterwards
    exactly if it was before. *)
Theorem call_leaves_other_ids (e : Event) (w : World) (j : UUID) :
  written_id (call e) <> Some j ->
  Dict.get (_store (exec e w)) j = Dict.get (_store w) j /\
  (In j (Dict.keys (_store (exec e w))) <-> In j (Dict.keys (_store w))).
Proof.
  intros Hj. assert (Hget := exec_get_other e w j Hj).
  split; [exact Hget|].
  destruct (Dict.get (_store w) j) as [o|] eqn:E.
  - split; intros _.
    + eapply DictFacts.In_keys, DictFacts.get_Some_In; eauto.
    + eapply DictFacts.In_keys, DictFacts.get_Some_In; eauto.
  - apply DictFacts.get_None_iff in E, Hget. tauto.
Qed.

Lemma call_leaves_other_ids_witness :
  written_id (CallDelete 1) <> Some 2%N /\
  Dict.get (_store (exec (mkEvent 30 (CallDelete 1)) sample_world)) 2
  = Dict.get (_store sample_world) 2.
Proof.
  assert (H : written_id (CallDelete 1) <> Some 2%N) by discriminate.
  split; [exact H|].
  apply (call_leaves_other_ids (mkEvent 30 (CallDelete 1)) sample_world 2 H).
Defined.

Lemma exec_keeps_identity e w i n :
  keeps i (call e) -> stored w i = Some n ->
  exists n', stored (exec e w) i = Some n' /\
             Note.id n' = Note.id n /\
             Note.created_at n' = Note.created_at n.
Proof.
  intros Hkeep Hst.
  destruct (call e) as [|u p|j|j p|j] eqn:Hcall.
  - exists n. unfold exec. rewrite Hcall. auto.
  - exists n. unfold stored. rewrite exec_get_other; [auto|].
    rewrite Hcall. simpl in *. congruence.
  - exists n. unfold stored. rewrite exec_get_other; [auto|].
    rewrite Hcall. discriminate.
  - destruct (N.eq_dec j i) as [->|Hne].
    + unfold exec. rewrite Hcall.
      destruct (update_note_cases (at_time e) w i p)
        as [(o & Hget & ->)|(x & ->)]; [|eauto].
      unfold stored in *. rewrite Hget in Hst. injection Hst as <-.
      simpl. rewrite DictFacts.get_set_eq. simpl. eauto.
    + exists n. unfold stored. rewrite exec_get_other; [auto|].
      rewrite Hcall. simpl. congruence.
  - exists n. unfold stored. rewrite exec_get_other; [auto|].
    rewrite Hcall. simpl in *. congruence.
Qed.

(** X3. A stored note keeps its [id] and its [created_at] for as long as
    it lives: along any sequence of calls that neither deletes the id nor
    creates a note under it again, the id stays in the store with the
    same [id] and [created_at], whatever updates it receives. *)
Theorem note_identity_is_kept (tr : list Event) (w : World) (i : UUID)
    (n : Note.t) :
  Forall (fun e => keeps i (call e)) tr ->
  stored w i = Some n ->
  exists n', stored (run tr w) i = Some n' /\
             Note.id n' = Note.id n /\
             Note.created_at n' = Note.created_at n.
Proof.
  intros Hall. revert w n.
  induction Hall as [|e tr Hkeep _ IH]; simpl; intros w n Hst; [eauto|].
  destruct (exec_keeps_identity e w i n Hkeep Hst) as (n1 & Hst1 & Hid & Hc).
  destruct (IH _ _ Hst1) as (n' & Hst' & Hid' & Hc').
  exists n'. repeat split; congruence.
Qed.

Lemma note_identity_is_kept_witness :
  Forall (fun e => keeps 1 (call e))
         [mkEvent 30 (CallUpdate 1 (NoteUpdate.mk (Some "A2") None));
          mkEvent 40 (CallDelete 2)] /\
  stored sample_world 1 = Some sample_note /\
  exists n', stored (run [mkEvent 30 (CallUpdate 1
                                        (NoteUpdate.mk (Some "A2") None));
                          mkEvent 40 (CallDelete 2)] sample_world) 1
             = Some n' /\
             Note.id n' = 1%N /\ Note.created_at n' = 10.
Proof.
  assert (H : Forall (fun e => keeps 1 (call e))
                [mkEvent 30 (CallUpdate 1 (NoteUpdate.mk (Some "A2") None));
                 mkEvent 40 (CallDelete 2)]).
  { repeat constructor. simpl. discriminate. }
  split; [exact H|]. split; [reflexivity|].
  apply (note_identity_is_kept _ sample_world 1 sample_note H eq_refl).
Defined.

(** X4. An update that names at least one field, on a stored id, returns;
    [get_note] on the id then returns the very object the update
    returned.  Each of title and content is the payload's where the
    payload gives one and the old one where it does not; [id] and
    [created_at] are the old ones, [updated_at] is the clock reading; the
    ids of the store and their order are as before. *)
Theorem update_then_get (w : World) (i : UUID) (n : Note.t)
    (p : NoteUpdate.t) (now : datetime) :
  stored w i = Some n -> names_a_field p ->
  exists o' w',
    NotesRepository.update_note now i p w = (Ok o', w') /\
    NotesRepository.get_note i w' = (Ok o', w') /\
    Note.title (fields o')
      = match NoteUpdate.title p with Some s => s | None => Note.title n end /\
    Note.content (fields o')
      = match NoteUpdate.content p with
        | Some s => s | None => Note.content n end /\
    Note.id (fields o') = Note.id n /\
    Note.created_at (fields o') = Note.created_at n /\
    Note.updated_at (fields o') = now /\
    Dict.keys (_store w') = Dict.keys (_store w).
Proof.
  unfold stored. intros Hst Hp.
  destruct (Dict.get (_store w) i) as [o|] eqn:Hget; [|discriminate].
  injection Hst as <-.
  eexists _, _. split.
  - apply update_note_some; [exact Hget|].
    intros ->. destruct Hp as [H|H]; now apply H.
  - split.
    + apply get_note_found. simpl. apply DictFacts.get_set_eq.
    + simpl. repeat split. apply DictFacts.keys_set_present.
      eapply DictFacts.In_keys, DictFacts.get_Some_In; eauto.
Qed.

Lemma update_then_get_witness :
  stored sample_world 2 = Some (Note.mk 2 "C" "D" 20 20) /\
  names_a_field (NoteUpdate.mk None (Some "D2")) /\
  exists o' w',
    NotesRepository.update_note 30 2 (NoteUpdate.mk None (Some "D2"))
      sample_world = (Ok o', w') /\
    NotesRepository.get_note 2 w' = (Ok o', w').
Proof.
  assert (Hp : names_a_field (NoteUpdate.mk None (Some "D2")))
    by (right; discriminate).
  split; [reflexivity|]. split; [exact Hp|].
  destruct (update_then_get sample_world 2 _ _ 30 eq_refl Hp)
    as (o' & w' & Hrun & Hget & _).
  exists o', w'. split; assumption.
Defined.

(* ===================================================================== *)
(** ** Identities in a reachable store *)
(* ===================================================================== *)

Lemma In_values_set (d : Dict.t) k v x :
  In x (Dict.values (Dict.set d k v)) -> x = v \/ In x (Dict.values d).
Proof.
  induction d as [|[k' v'] d IH]; simpl.
  - intros [H|[]]; auto.
  - destruct (N.eqb k' k); simpl; intros [H|H]; auto.
    destruct (IH H); auto.
Qed.

Lemma In_values_del (d : Dict.t) k x :
  In x (Dict.values (Dict.del d k)) -> In x (Dict.values d).
Proof.
  induction d as [|[k' v'] d IH]; simpl; [tauto|].
  destruct (N.eqb k' k); simpl; intros H; [auto|].
  destruct H; auto.
Qed.

Lemma oids_distinct_set (d : Dict.t) k v :
  NoDup (map oid (Dict.values d)) ->
  ~ In (oid v) (map oid (Dict.values d)) ->
  NoDup (map oid (Dict.values (Dict.set d k v))).
Proof.
  induction d as [|[k' v'] d IH]; simpl; intros Hnd Hnew.
  - repeat constructor. simpl. tauto.
  - inversion Hnd as [|? ? Hhd Htl]; subst.
    destruct (N.eqb k' k); simpl.
    + constructor; [tauto | assumption].
    + constructor; [|apply IH; tauto].
      intros Hin. apply in_map_iff in Hin as (x & Hx & Hin).
      apply In_values_set in Hin as [->|Hin].
      * apply Hnew. left. congruence.
      * apply Hhd. rewrite <- Hx. now apply in_map.
Qed.

Lemma oids_distinct_del (d : Dict.t) k :
  NoDup (map oid (Dict.values d)) ->
  NoDup (map oid (Dict.values (Dict.del d k))).
Proof.
  induction d as [|[k' v'] d IH]; simpl; intros Hnd; [constructor|].
  inversion Hnd as [|? ? Hhd Htl]; subst.
  destruct (N.eqb k' k); simpl; [assumption|].
  constructor; [|auto]. intros Hin. apply Hhd.
  apply in_map_iff in Hin as (x & Hx & Hin). rewrite <- Hx.
  apply in_map. eapply In_values_del; eauto.
Qed.

Lemma next_oid_unused w :
  oids_allocated w -> ~ In (next_oid w) (map oid (Dict.values (_store w))).
Proof.
  unfold oids_allocated. rewrite Forall_forall. intros Hall Hin.
  apply in_map_iff in Hin as (x & Hx & Hin). specialize (Hall x Hin). lia.
Qed.

Lemma exec_oids_distinct e w :
  oids_allocated w -> oids_distinct w -> oids_distinct (exec e w).
Proof.
  unfold oids_distinct. intros Halloc Hnd.
  assert (Hnew := next_oid_unused w Halloc).
  unfold exec. destruct (call e) as [|u p|i|i p|i].
  - exact Hnd.
  - destruct (create_note_cases u (at_time e) p w) as [[_ ->]|[_ ->]];
      [|exact Hnd].
    simpl. now apply oids_distinct_set.
  - now rewrite get_note_world.
  - destruct (update_note_cases (at_time e) w i p)
      as [(o & Hget & ->)|(x & ->)]; [|exact Hnd].
    simpl. now apply oids_distinct_set.
  - destruct (in_dec N.eq_dec i (Dict.keys (_store w))) as [Hin|Hnotin].
    + rewrite (delete_note_present _ _ Hin). simpl.
      now apply oids_distinct_del.
    + now rewrite (delete_note_missing _ _ Hnotin).
Qed.

Lemma run_oids_distinct tr : forall w,
  store_inv w -> oids_distinct w -> oids_distinct (run tr w).
Proof.
  induction tr as [|e tr IH]; simpl; intros w Hinv Hnd; [exact Hnd|].
  apply IH; [now apply exec_store_inv|].
  apply exec_oids_distinct; [apply Hinv | exact Hnd].
Qed.

Lemma keyed_note_ids (d : Dict.t) :
  Forall (fun kv : UUID * PyObj => Note.id (fields (snd kv)) = fst kv) d ->
  note_ids (Dict.values d) = Dict.keys d.
Proof.
  unfold note_ids, Dict.values, Dict.keys. rewrite map_map.
  intros H. apply map_ext_in. rewrite Forall_forall in H. exact H.
Qed.

(** X5. After any sequence of repository calls from the empty store:
    the note [get_note] returns for an id carries that id; the notes
    [list_notes] returns have pairwise distinct ids and are pairwise
    distinct objects. *)
Theorem reachable_ids_are_unique (tr : list Event) :
  (forall i o,
     NotesRepository.get_note i (run tr empty_world)
       = (Ok o, run tr empty_world) ->
     Note.id (fields o) = i) /\
  (forall l,
     NotesRepository.list_notes (run tr empty_world)
       = (Ok l, run tr empty_world) ->
     NoDup (note_ids l) /\ NoDup (map oid l)).
Proof.
  set (w := run tr empty_world).
  destruct (reachable_store_inv tr) as (Hwf & Halloc & Hkey).
  assert (Hnd : oids_distinct w).
  { apply run_oids_distinct; [|constructor].
    unfold store_inv, oids_allocated, keyed_by_id. simpl.
    repeat split; constructor. }
  fold w in Hwf, Halloc, Hkey. split.
  - intros i o Hrun. apply get_note_inv in Hrun as [Hget _].
    unfold keyed_by_id in Hkey. rewrite Forall_forall in Hkey.
    apply (Hkey (i, o)). now apply DictFacts.get_Some_In.
  - intros l Hrun. rewrite list_notes_eq in Hrun. inversion Hrun; subst l.
    assert (Hperm := sorted_perm created (Dict.values (_store w))).
    split.
    + apply (Permutation_NoDup
               (Permutation_sym (Permutation_map _ Hperm))).
      unfold note_ids in *. fold (note_ids (Dict.values (_store w))).
      rewrite keyed_note_ids; assumption.
    + apply (Permutation_NoDup
               (Permutation_sym (Permutation_map _ Hperm))).
      exact Hnd.
Qed.

Lemma distinct_ids_distinct_oids (d : Dict.t) i j o o' :
  NoDup (map oid (Dict.values d)) ->
  In (i, o) d -> In (j, o') d -> i <> j -> oid o' <> oid o.
Proof.
  induction d as [|[k v] d IH]; simpl; [tauto|].
  intros Hnd Hi Hj Hne. inversion Hnd as [|? ? Hhd Htl]; subst.
  destruct Hi as [Ei|Hi], Hj as [Ej|Hj].
  - congruence.
  - injection Ei as -> ->. intros E. apply Hhd. rewrite <- E.
    apply in_map. apply (in_map snd) in Hj. exact Hj.
  - injection Ej as -> ->. intros E. apply Hhd. rewrite E.
    apply in_map. apply (in_map snd) in Hi. exact Hi.
  - auto.
Qed.

(** X6. In a store reached by repository calls, an attribute assigned
    through the note held under one id reaches that id only: every other
    id holds the object it held, with the values it had. *)
Theorem setattr_reaches_one_id (tr : list Event) (i j : UUID) (o : PyObj)
    (f : Note.t -> Note.t) :
  Dict.get (_store (run tr empty_world)) i = Some o -> j <> i ->
  Dict.get (_store (snd (setattr o f (run tr empty_world)))) j
  = Dict.get (_store (run tr empty_world)) j.
Proof.
  set (w := run tr empty_world). intros Hi Hne.
  assert (Hnd : oids_distinct w).
  { apply run_oids_distinct; [|constructor].
    unfold store_inv, oids_allocated, keyed_by_id. simpl.
    repeat split; constructor. }
  rewrite get_setattr.
  destruct (Dict.get (_store w) j) as [o'|] eqn:Hj; [|reflexivity].
  simpl. f_equal. apply assign_other.
  apply (distinct_ids_distinct_oids (_store w) i j); auto using DictFacts.get_Some_In.
Qed.

Lemma setattr_reaches_one_id_witness :
  Dict.get (_store (run sample_creates empty_world)) 1
    = Some (mkObj 0 sample_note) /\
  2%N <> 1%N /\
  Dict.get (_store (snd (setattr (mkObj 0 sample_note) (set_title "X")
                           (run sample_creates empty_world)))) 2
    = Some (mkObj 1 (Note.mk 2 "C" "D" 20 20)).
Proof.
  assert (H : 2%N <> 1%N) by discriminate.
  split; [reflexivity|]. split; [exact H|].
  rewrite (setattr_reaches_one_id sample_creates 1 2 (mkObj 0 sample_note)
             (set_title "X") eq_refl H).
  reflexivity.
Defined.

(* ===================================================================== *)
(** ** How the listing follows the writes *)
(* ===================================================================== *)

Section SortedWrites.
Context {A : Type} (key : A -> Z).

Lemma insert_by_before_last y a x :
  key y <= key x ->
  insert_by key y (a ++ [x]) = (insert_by key y a ++ [x])%list.
Proof.
  intros Hle. induction a as [|z a IH]; simpl.
  - destruct (Z.leb_spec (key y) (key x)); [reflexivity | lia].
  - destruct (key y <=? key z); [reflexivity|]. now rewrite IH.
Qed.

(** An element that is appended with a key no smaller than the others is
    sorted last. *)
Lemma sorted_app_last l x :
  Forall (fun y => key y <= key x) l ->
  sorted key (l ++ [x]) = (sorted key l ++ [x])%list.
Proof.
  induction 1 as [|y l Hy Hl IH]; simpl; [reflexivity|].
  rewrite IH. now apply insert_by_before_last.
Qed.

Lemma insert_by_split x s :
  exists s1 s2, s = (s1 ++ s2)%list /\
    forall x', key x' = key x ->
               insert_by key x' s = (s1 ++ x' :: s2)%list.
Proof.
  induction s as [|z s (s1 & s2 & Hs & Hins)]; simpl.
  - exists [], []. split; [reflexivity|]. reflexivity.
  - destruct (key x <=? key z) eqn:E.
    + exists [], (z :: s). split; [reflexivity|].
      intros x' Hx'. rewrite Hx', E. reflexivity.
    + exists (z :: s1), s2. split; [simpl; congruence|].
      intros x' Hx'. rewrite Hx', E. simpl. now rewrite Hins.
Qed.

Lemma insert_by_around y x x' l1 l2 :
  key x' = key x ->
  exists m1 m2,
    insert_by key y (l1 ++ x :: l2) = (m1 ++ x :: m2)%list /\
    insert_by key y (l1 ++ x' :: l2) = (m1 ++ x' :: m2)%list.
Proof.
  intros Hk. induction l1 as [|z l1 (m1 & m2 & H1 & H2)]; simpl.
  - rewrite Hk. destruct (key y <=? key x).
    + exists [y], l2. auto.
    + exists [], (insert_by key y l2). auto.
  - destruct (key y <=? key z).
    + exists (y :: z :: l1), l2. auto.
    + exists (z :: m1), m2. rewrite H1, H2. auto.
Qed.

(** Replacing an element by one with the same key replaces it in the
    sorted list, where it stands. *)
Lemma sorted_replace a x x' b :
  key x' = key x ->
  exists l1 l2,
    sorted key (a ++ x :: b) = (l1 ++ x :: l2)%list /\
    sorted key (a ++ x' :: b) = (l1 ++ x' :: l2)%list.
Proof.
  intros Hk. induction a as [|y a (l1 & l2 & H1 & H2)]; simpl.
  - destruct (insert_by_split x (sorted key b)) as (s1 & s2 & _ & Hins).
    exists s1, s2. split; apply Hins; auto.
  - rewrite H1, H2. now apply insert_by_around.
Qed.

Lemma insert_by_front y l :
  HdRel (key_le key) y l -> insert_by key y l = y :: l.
Proof.
  intros H. destruct l as [|z l]; simpl; [reflexivity|].
  inversion H as [|? ? Hle]; subst. unfold key_le in Hle.
  destruct (Z.leb_spec (key y) (key z)); [reflexivity | lia].
Qed.

Lemma insert_by_without y x l1 l2 :
  Sorted (key_le key) (l1 ++ x :: l2) ->
  exists m1 m2,
    insert_by key y (l1 ++ x :: l2) = (m1 ++ x :: m2)%list /\
    insert_by key y (l1 ++ l2) = (m1 ++ m2)%list.
Proof.
  induction l1 as [|z l1 IH]; simpl; intros Hs.
  - destruct (Z.leb_spec (key y) (key x)) as [Hle|Hgt].
    + exists [y], l2. split; [reflexivity|]. simpl.
      apply insert_by_front. inversion Hs as [|? ? Hs2 Hhd]; subst.
      destruct l2 as [|z l2]; constructor.
      inversion Hhd; subst. unfold key_le in *. lia.
    + exists [], (insert_by key y l2). auto.
  - destruct (key y <=? key z).
    + exists (y :: z :: l1), l2. auto.
    + inversion Hs as [|? ? Hs2 Hhd]; subst.
      destruct (IH Hs2) as (m1 & m2 & H1 & H2).
      exists (z :: m1), m2. rewrite H1, H2. auto.
Qed.

(** Taking an element out takes it out of the sorted list and moves
    nothing else. *)
Lemma sorted_remove a x b :
  exists l1 l2,
    sorted key (a ++ x :: b) = (l1 ++ x :: l2)%list /\
    sorted key (a ++ b) = (l1 ++ l2)%list.
Proof.
  induction a as [|y a (l1 & l2 & H1 & H2)]; simpl.
  - destruct (insert_by_split x (sorted key b)) as (s1 & s2 & Hs & Hins).
    exists s1, s2. split; [now apply Hins | exact Hs].
  - rewrite H1, H2. apply insert_by_without.
    rewrite <- H1. apply sorted_sorted.
Qed.
End SortedWrites.

Lemma dict_split (d : Dict.t) k v :
  Dict.get d k = Some v ->
  exists d1 d2,
    d = (d1 ++ (k, v) :: d2)%list /\
    (forall v', Dict.set d k v' = (d1 ++ (k, v') :: d2)%list) /\
    Dict.del d k = (d1 ++ d2)%list.
Proof.
  induction d as [|[k' v0] d IH]; simpl; [discriminate|].
  destruct (N.eqb_spec k' k) as [->|Hne]; intros H.
  - injection H as ->. exists [], d. auto.
  - destruct (IH H) as (d1 & d2 & -> & Hset & Hdel).
    exists ((k', v0) :: d1), d2. simpl. rewrite Hdel.
    repeat split. intros v'. now rewrite Hset.
Qed.

Lemma values_app (d1 d2 : Dict.t) :
  Dict.values (d1 ++ d2)%list = (Dict.values d1 ++ Dict.values d2)%list.
Proof. apply map_app. Qed.

(** X7. A note created from a valid payload under an unused id, at a
    clock reading no earlier than the [created_at] of the stored notes,
    is listed last: the listing after the creation is the listing before
    it, followed by the new note. *)
Theorem create_is_listed_last (w : World) (u : UUID) (now : datetime)
    (p : NoteCreate.t) :
  valid_create p = true ->
  ~ In u (Dict.keys (_store w)) ->
  Forall (fun o => created o <= now) (Dict.values (_store w)) ->
  exists o w' l,
    NotesRepository.create_note u now p w = (Ok o, w') /\
    NotesRepository.list_notes w = (Ok l, w) /\
    NotesRepository.list_notes w' = (Ok (l ++ [o])%list, w').
Proof.
  intros Hp Hnew Hold. eexists _, _, _.
  split; [now apply create_note_eq|]. split; [apply list_notes_eq|].
  rewrite list_notes_eq. simpl.
  rewrite (DictFacts.set_absent _ _ _ Hnew), values_app. simpl.
  rewrite sorted_app_last; [reflexivity | exact Hold].
Qed.

Lemma create_is_listed_last_witness :
  valid_create (NoteCreate.mk "E" "F") = true /\
  ~ In 3%N (Dict.keys (_store sample_world)) /\
  Forall (fun o => created o <= 20) (Dict.values (_store sample_world)) /\
  exists o w' l,
    NotesRepository.create_note 3 20 (NoteCreate.mk "E" "F") sample_world
      = (Ok o, w') /\
    NotesRepository.list_notes sample_world = (Ok l, sample_world) /\
    NotesRepository.list_notes w' = (Ok (l ++ [o])%list, w').
Proof.
  assert (H1 : ~ In 3%N (Dict.keys (_store sample_world))).
  { simpl. intros [E|[E|[]]]; discriminate E. }
  assert (H2 : Forall (fun o => created o <= 20)
                      (Dict.values (_store sample_world))).
  { simpl. repeat constructor; unfold created; simpl; lia. }
  split; [reflexivity|]. split; [exact H1|]. split; [exact H2|].
  apply (create_is_listed_last sample_world 3 20 (NoteCreate.mk "E" "F")
           eq_refl H1 H2).
Defined.

(** X8. A successful update leaves the listing in the same order: the
    updated note stands where the note stood, and the notes before and
    after it are the same objects. *)
Theorem update_keeps_place (w : World) (i : UUID) (o : PyObj)
    (p : NoteUpdate.t) (now : datetime) :
  Dict.get (_store w) i = Some o -> names_a_field p ->
  exists o' w' l1 l2,
    NotesRepository.update_note now i p w = (Ok o', w') /\
    NotesRepository.list_notes w = (Ok (l1 ++ o :: l2)%list, w) /\
    NotesRepository.list_notes w' = (Ok (l1 ++ o' :: l2)%list, w').
Proof.
  intros Hget Hp.
  assert (Hp' : p <> NoteUpdate.mk None None).
  { intros ->. destruct Hp as [H|H]; now apply H. }
  destruct (dict_split _ _ _ Hget) as (d1 & d2 & Hd & Hset & _).
  destruct (sorted_replace created (Dict.values d1) o
              (updated_obj now p w o) (Dict.values d2) eq_refl)
    as (l1 & l2 & H1 & H2).
  exists (updated_obj now p w o), (updated_world now i p w o), l1, l2.
  split; [now apply update_note_some|].
  rewrite !list_notes_eq. simpl. rewrite Hset. rewrite Hd at 1.
  rewrite !values_app. simpl. now rewrite H1, H2.
Qed.

Lemma update_keeps_place_witness :
  Dict.get (_store sample_world) 1 = Some (mkObj 0 sample_note) /\
  names_a_field (NoteUpdate.mk (Some "A2") None) /\
  exists o' w' l1 l2,
    NotesRepository.update_note 30 1 (NoteUpdate.mk (Some "A2") None)
      sample_world = (Ok o', w') /\
    NotesRepository.list_notes sample_world
      = (Ok (l1 ++ mkObj 0 sample_note :: l2)%list, sample_world) /\
    NotesRepository.list_notes w' = (Ok (l1 ++ o' :: l2)%list, w').
Proof.
  assert (Hp : names_a_field (NoteUpdate.mk (Some "A2") None))
    by (left; discriminate).
  split; [reflexivity|]. split; [exact Hp|].
  apply (update_keeps_place sample_world 1 _ _ 30 eq_refl Hp).
Defined.

(** X9. A successful delete takes the note out of the listing and moves
    nothing else: the notes listed before it and after it stay, in the
    same order. *)
Theorem delete_takes_out_of_list (w : World) (i : UUID) (o : PyObj) :
  Dict.get (_store w) i = Some o ->
  exists w' l1 l2,
    NotesRepository.delete_note i w = (Ok tt, w') /\
    NotesRepository.list_notes w = (Ok (l1 ++ o :: l2)%list, w) /\
    NotesRepository.list_notes w' = (Ok (l1 ++ l2)%list, w').
Proof.
  intros Hget.
  destruct (dict_split _ _ _ Hget) as (d1 & d2 & Hd & _ & Hdel).
  destruct (sorted_remove created (Dict.values d1) o (Dict.values d2))
    as (l1 & l2 & H1 & H2).
  eexists _, l1, l2. split.
  - apply delete_note_present.
    eapply DictFacts.In_keys, DictFacts.get_Some_In; eauto.
  - rewrite !list_notes_eq. simpl. rewrite Hdel. rewrite Hd at 1.
    rewrite !values_app. simpl. now rewrite H1, H2.
Qed.

Lemma delete_takes_out_of_list_witness :
  Dict.get (_store sample_world) 1 = Some (mkObj 0 sample_note) /\
  exists w' l1 l2,
    NotesRepository.delete_note 1 sample_world = (Ok tt, w') /\
    NotesRepository.list_notes sample_world
      = (Ok (l1 ++ mkObj 0 sample_note :: l2)%list, sample_world) /\
    NotesRepository.list_notes w' = (Ok (l1 ++ l2)%list, w').
Proof.
  split; [reflexivity|].
  apply (delete_takes_out_of_list sample_world 1 _ eq_refl).
Defined.

Lemma del_last (d : Dict.t) k v :
  ~ In k (Dict.keys d) -> Dict.del (d ++ [(k, v)])%list k = d.
Proof.
  induction d as [|[k' v'] d IH]; simpl; intros Hnew.
  - now rewrite N.eqb_refl.
  - destruct (N.eqb_spec k' k) as [->|Hne]; [tauto|].
    rewrite IH; tauto.
Qed.

Lemma set_last (d : Dict.t) k v v' :
  ~ In k (Dict.keys d) ->
  Dict.set (d ++ [(k, v)])%list k v' = (d ++ [(k, v')])%list.
Proof.
  induction d as [|[k0 v0] d IH]; simpl; intros Hnew.
  - now rewrite N.eqb_refl.
  - destruct (N.eqb_spec k0 k) as [->|Hne]; [tauto|].
    rewrite IH; tauto.
Qed.

(** X10. Creating a note from a valid payload under an unused id and
    deleting the returned id gives back the store there was: the same
    entries in the same order. *)
Theorem create_then_delete (w : World) (u : UUID) (now : datetime)
    (p : NoteCreate.t) :
  valid_create p = true ->
  ~ In u (Dict.keys (_store w)) ->
  exists o w1 w2,
    NotesRepository.create_note u now p w = (Ok o, w1) /\
    NotesRepository.delete_note (Note.id (fields o)) w1 = (Ok tt, w2) /\
    _store w2 = _store w.
Proof.
  intros Hp Hnew. eexists _, _, _. split; [now apply create_note_eq|]. simpl.
  split.
  - apply delete_note_present. simpl.
    eapply DictFacts.In_keys, DictFacts.get_Some_In, DictFacts.get_set_eq.
  - simpl. rewrite (DictFacts.set_absent _ _ _ Hnew). now apply del_last.
Qed.

Lemma create_then_delete_witness :
  valid_create (NoteCreate.mk "E" "F") = true /\
  ~ In 3%N (Dict.keys (_store sample_world)) /\
  exists o w1 w2,
    NotesRepository.create_note 3 30 (NoteCreate.mk "E" "F") sample_world
      = (Ok o, w1) /\
    NotesRepository.delete_note (Note.id (fields o)) w1 = (Ok tt, w2) /\
    _store w2 = _store sample_world.
Proof.
  assert (H1 : ~ In 3%N (Dict.keys (_store sample_world))).
  { simpl. intros [E|[E|[]]]; discriminate E. }
  split; [reflexivity|]. split; [exact H1|].
  apply (create_then_delete sample_world 3 30 (NoteCreate.mk "E" "F")
           eq_refl H1).
Defined.

(* ===================================================================== *)
(** ** The routes over the repository *)
(* ===================================================================== *)

(** Closes the cases of a response once route and repository call are
    evaluated. *)
Ltac settle_route :=
  unfold success_status, HTTP_200_OK, HTTP_201_CREATED, HTTP_204_NO_CONTENT;
  repeat split; intros; simpl in *; try congruence;
  try (match goal with
       | H : Some _ = Some _ |- _ => inversion H; subst; reflexivity
       end).

(** A request whose body the payload model refuses is answered 422 and
    changes nothing. *)
Lemma dispatch_refused e w :
  valid_call (call e) = false ->
  dispatch e w = ({| status := 422; body := RequestErrors |}, w).
Proof.
  unfold dispatch, valid_call. destruct (call e) as [|u p|i|i p|i];
    try discriminate; intros Hp.
  - now apply POST_notes_refused.
  - now apply PUT_note_refused.
Qed.

(** What a route answers and does when the body, if there is one, is
    accepted. *)
Lemma dispatch_accepted e w :
  valid_call (call e) = true ->
  snd (dispatch e w) = exec e w /\
  (raised e w = None ->
   status (fst (dispatch e w)) = success_status (call e)) /\
  (forall msg, raised e w = Some (NotFoundError msg) ->
               fst (dispatch e w)
               = {| status := 404; body := detail_body msg |} /\
               snd (dispatch e w) = w) /\
  (forall msg, raised e w = Some (ValidationError msg) ->
               fst (dispatch e w)
               = {| status := 400; body := detail_body msg |} /\
               snd (dispatch e w) = w) /\
  status (fst (dispatch e w)) <> 500.
Proof.
  unfold dispatch, exec, raised, exn_of, valid_call.
  destruct (call e) as [|u p|i|i p|i]; simpl; intros Hv.
  - settle_route.
  - rewrite (POST_notes_created _ _ _ _ Hv), (create_note_eq _ _ _ _ Hv).
    settle_route.
  - destruct (Dict.get (_store w) i) as [o|] eqn:E.
    + rewrite (GET_note_ok _ _ _ E), (get_note_found _ _ _ E).
      settle_route.
    + rewrite (get_note_missing _ _ E).
      apply DictFacts.get_None_iff in E.
      rewrite (GET_note_not_found _ _ E). settle_route.
  - destruct (Dict.get (_store w) i) as [o|] eqn:E.
    + destruct p as [[t|] [c|]];
        try (rewrite (PUT_note_ok _ _ _ o _ Hv E) by discriminate;
             rewrite (update_note_some _ _ _ o _ E) by discriminate;
             settle_route).
      rewrite (update_note_nothing _ _ _ _ E).
      rewrite PUT_note_nothing
        by (eapply DictFacts.In_keys, DictFacts.get_Some_In; eauto).
      settle_route.
    + rewrite (update_note_missing _ _ _ _ E).
      apply DictFacts.get_None_iff in E.
      rewrite (PUT_note_not_found _ _ _ _ Hv E). settle_route.
  - destruct (in_dec N.eq_dec i (Dict.keys (_store w))) as [Hin|Hnotin].
    + rewrite (DELETE_note_done _ _ Hin), (delete_note_present _ _ Hin).
      settle_route.
    + rewrite (DELETE_note_not_found _ _ Hnotin),
        (delete_note_missing _ _ Hnotin). settle_route.
Qed.

Lemma dispatch_exec e w :
  valid_call (call e) = true -> snd (dispatch e w) = exec e w.
Proof. intros Hv. apply (dispatch_accepted e w Hv). Qed.

(** The errors a route can meet once the body is accepted are the two of
    the repository. *)
Lemma raised_when_accepted e w x :
  valid_call (call e) = true -> raised e w = Some x ->
  exists msg, x = NotFoundError msg \/ x = ValidationError msg.
Proof.
  unfold raised, exn_of, valid_call.
  destruct (call e) as [|u p|i|i p|i]; simpl; intros Hv.
  - discriminate.
  - rewrite (create_note_eq _ _ _ _ Hv). discriminate.
  - destruct (Dict.get (_store w) i) as [o|] eqn:E.
    + rewrite (get_note_found _ _ _ E). discriminate.
    + rewrite (get_note_missing _ _ E). simpl. intros H. injection H as <-.
      eauto.
  - destruct (Dict.get (_store w) i) as [o|] eqn:E.
    + destruct p as [[t|] [c|]];
        try (rewrite (update_note_some _ _ _ o _ E) by discriminate;
             discriminate).
      rewrite (update_note_nothing _ _ _ _ E). simpl. intros H.
      injection H as <-. eauto.
    + rewrite (update_note_missing _ _ _ _ E). simpl. intros H.
      injection H as <-. eauto.
  - destruct (in_dec N.eq_dec i (Dict.keys (_store w))) as [Hin|Hnotin].
    + rewrite (delete_note_present _ _ Hin). discriminate.
    + rewrite (delete_note_missing _ _ Hnotin). simpl. intros H.
      injection H as <-. eauto.
Qed.

(** X11. A request whose body does not satisfy the payload model ([POST]
    and [PUT] only) is answered 422 before the handler runs, and the
    store stays as it was.  Otherwise the route does to the store what
    its repository call does and nothing more: it answers with the
    status code of its decorator exactly when the repository call
    returns; when the call raises the not-found error it answers 404,
    when it raises the validation error of the repository 400, in both
    cases with the message of the exception as detail and the store
    unchanged.  No exception escapes a handler: the server-error answer
    does not occur. *)
Theorem routes_follow_repository (e : Event) (w : World) :
  (valid_call (call e) = false ->
   dispatch e w = ({| status := 422; body := RequestErrors |}, w)) /\
  (valid_call (call e) = true ->
   snd (dispatch e w) = exec e w /\
   (raised e w = None <->
    status (fst (dispatch e w)) = success_status (call e)) /\
   (forall msg, raised e w = Some (NotFoundError msg) ->
                fst (dispatch e w)
                = {| status := 404; body := detail_body msg |} /\
                snd (dispatch e w) = w) /\
   (forall msg, raised e w = Some (ValidationError msg) ->
                fst (dispatch e w)
                = {| status := 400; body := detail_body msg |} /\
                snd (dispatch e w) = w)) /\
  status (fst (dispatch e w)) <> 500.
Proof.
  split; [apply dispatch_refused|].
  destruct (valid_call (call e)) eqn:Hv.
  - destruct (dispatch_accepted e w Hv) as (H1 & H2 & H3 & H4 & H5).
    split; [|exact H5]. intros _.
    split; [exact H1|]. split; [|split; assumption].
    split; [exact H2|]. intros Hs.
    destruct (raised e w) as [x|] eqn:Hr; [|reflexivity].
    exfalso.
    destruct (raised_when_accepted e w x Hv Hr) as [msg [-> | ->]].
    + destruct (H3 msg eq_refl) as [E _]. rewrite E in Hs.
      unfold success_status in Hs. destruct (call e); discriminate.
    + destruct (H4 msg eq_refl) as [E _]. rewrite E in Hs.
      unfold success_status in Hs. destruct (call e); discriminate.
  - split; [discriminate|].
    rewrite (dispatch_refused e w Hv). discriminate.
Qed.

(** X12. A note's life over the routes, from any store, for an unused id
    and for a payload and a new title that satisfy the constraints of the
    models: [POST] answers 201 with the new note; [GET] on its id answers
    200 with the same note; [PUT] with the title answers 200 with that
    title, the same content, id and [created_at]; [DELETE] answers 204;
    [GET] then answers 404 naming the id, and the store is the one before
    the [POST]. *)
Theorem note_life_over_routes (w : World) (u : UUID) (p : NoteCreate.t)
    (T : string) (t1 t2 : datetime) :
  valid_create p = true -> valid_title T = true ->
  ~ In u (Dict.keys (_store w)) ->
  exists w1 w2 w3,
    App.POST_notes u t1 p w
    = ({| status := 201;
          body := Json (note_json (Note.mk u (NoteCreate.title p)
                                     (NoteCreate.content p) t1 t1)) |}, w1) /\
    App.GET_note u w1
    = ({| status := 200;
          body := Json (note_json (Note.mk u (NoteCreate.title p)
                                     (NoteCreate.content p) t1 t1)) |}, w1) /\
    App.PUT_note t2 u (NoteUpdate.mk (Some T) None) w1
    = ({| status := 200;
          body := Json (note_json (Note.mk u T (NoteCreate.content p)
                                     t1 t2)) |}, w2) /\
    fst (App.DELETE_note u w2) = {| status := 204; body := Json JNull |} /\
    snd (App.DELETE_note u w2) = w3 /\
    App.GET_note u w3
    = ({| status := 404;
          body := detail_body (NotesRepository.not_found_msg u) |}, w3) /\
    _store w3 = _store w.
Proof.
  intros Hp HT Hnew.
  set (o1 := created_obj u t1 p w).
  set (w1 := {| next_oid := S (next_oid w);
                _store := Dict.set (_store w) u o1 |}).
  assert (H1 : Dict.get (_store w1) u = Some o1)
    by (simpl; apply DictFacts.get_set_eq).
  set (q := NoteUpdate.mk (Some T) None).
  assert (Hq : valid_update q = true).
  { unfold valid_update, q. simpl. now rewrite HT. }
  set (w2 := updated_world t2 u q w1 o1).
  assert (Hin2 : In u (Dict.keys (_store w2))).
  { simpl. eapply DictFacts.In_keys, DictFacts.get_Some_In,
             DictFacts.get_set_eq. }
  assert (Hst : Dict.del (_store w2) u = _store w).
  { simpl. rewrite (DictFacts.set_absent _ _ _ Hnew).
    rewrite (set_last _ _ _ _ Hnew). now apply del_last. }
  exists w1, w2, {| next_oid := next_oid w2; _store := Dict.del (_store w2) u |}.
  split.
  { rewrite (POST_notes_created _ _ _ _ Hp).
    now rewrite (create_note_eq _ _ _ _ Hp). }
  split; [now rewrite (GET_note_ok _ _ _ H1)|].
  split; [rewrite (PUT_note_ok t2 _ _ o1 q Hq H1) by discriminate;
          reflexivity|].
  rewrite (DELETE_note_done _ _ Hin2).
  split; [reflexivity|]. split; [reflexivity|].
  split; [|exact Hst].
  apply GET_note_not_found. change (~ In u (Dict.keys (Dict.del (_store w2) u))).
  rewrite Hst. exact Hnew.
Qed.

Lemma note_life_over_routes_witness :
  valid_create (NoteCreate.mk "E" "F") = true /\
  valid_title "E2" = true /\
  ~ In 3%N (Dict.keys (_store sample_world)) /\
  exists w1 w2 w3,
    status (fst (App.POST_notes 3 30 (NoteCreate.mk "E" "F") sample_world))
      = 201 /\
    snd (App.POST_notes 3 30 (NoteCreate.mk "E" "F") sample_world) = w1 /\
    snd (App.PUT_note 40 3 (NoteUpdate.mk (Some "E2") None) w1) = w2 /\
    snd (App.DELETE_note 3 w2) = w3 /\
    _store w3 = _store sample_world.
Proof.
  assert (H1 : ~ In 3%N (Dict.keys (_store sample_world))).
  { simpl. intros [E|[E|[]]]; discriminate E. }
  split; [reflexivity|]. split; [reflexivity|]. split; [exact H1|].
  destruct (note_life_over_routes sample_world 3 (NoteCreate.mk "E" "F")
              "E2" 30 40 eq_refl eq_refl H1)
    as (w1 & w2 & w3 & Hpost & _ & Hput & _ & Hdel & _ & Hst).
  exists w1, w2, w3. rewrite Hpost, Hput. auto.
Defined.

(* ===================================================================== *)
(** ** Field constraints in the store *)
(* ===================================================================== *)

Lemma exec_valid_notes e w :
  valid_call (call e) = true ->
  Forall (fun o => valid_note (fields o) = true) (Dict.values (_store w)) ->
  Forall (fun o => valid_note (fields o) = true)
         (Dict.values (_store (exec e w))).
Proof.
  intros Hcall Hall. unfold exec.
  destruct (call e) as [|u p|i|i p|i].
  - exact Hall.
  - rewrite (create_note_eq _ _ _ _ Hcall). simpl.
    apply Forall_values_set; [exact Hall|]. exact Hcall.
  - now rewrite get_note_world.
  - destruct (update_note_cases (at_time e) w i p)
      as [(o & Hget & ->)|(x & ->)]; [|exact Hall].
    simpl. apply Forall_values_set; [exact Hall|].
    rewrite Forall_forall in Hall.
    specialize (Hall o (DictFacts.get_In_values _ _ _ Hget)).
    unfold valid_note in *. simpl in *. unfold valid_update in Hcall.
    apply andb_true_iff in Hall as [Ht Hc].
    apply andb_true_iff in Hcall as [Ht' Hc'].
    apply andb_true_iff.
    destruct (NoteUpdate.title p), (NoteUpdate.content p); auto.
  - destruct (in_dec N.eq_dec i (Dict.keys (_store w))) as [Hin|Hnotin].
    + rewrite (delete_note_present _ _ Hin). simpl.
      now apply Forall_values_del.
    + now rewrite (delete_note_missing _ _ Hnotin).
Qed.

Lemma run_valid_notes tr : forall w,
  Forall (fun e => valid_call (call e) = true) tr ->
  Forall (fun o => valid_note (fields o) = true) (Dict.values (_store w)) ->
  Forall (fun o => valid_note (fields o) = true)
         (Dict.values (_store (run tr w))).
Proof.
  induction tr as [|e tr IH]; simpl; intros w Hall Hw; [exact Hw|].
  inversion Hall; subst. apply IH; [assumption|].
  now apply exec_valid_notes.
Qed.

(** X13. The store holds only notes with a title of 1 to 200 characters
    and a non-empty content, after any sequence of calls whose payloads
    passed the constraints of the models: the repository copies fields
    from validated payloads and from stored notes, and from nowhere
    else. *)
Theorem stored_fields_stay_valid (tr : list Event) (i : UUID) (n : Note.t) :
  Forall (fun e => valid_call (call e) = true) tr ->
  stored (run tr empty_world) i = Some n ->
  (1 <= length (Note.title n) <= 200)%nat /\
  (1 <= length (Note.content n))%nat.
Proof.
  intros Hall Hst.
  assert (Hinv : Forall (fun o => valid_note (fields o) = true)
                        (Dict.values (_store (run tr empty_world))))
    by (apply run_valid_notes; [exact Hall | constructor]).
  unfold stored in Hst.
  destruct (Dict.get (_store (run tr empty_world)) i) as [o|] eqn:E;
    [|discriminate].
  injection Hst as <-. rewrite Forall_forall in Hinv.
  specialize (Hinv o (DictFacts.get_In_values _ _ _ E)).
  unfold valid_note, valid_title, valid_content in Hinv.
  apply andb_true_iff in Hinv as [Ht Hc].
  apply andb_true_iff in Ht as [Ht1 Ht2].
  apply Nat.leb_le in Ht1, Ht2, Hc. lia.
Qed.

Lemma stored_fields_stay_valid_witness :
  Forall (fun e => valid_call (call e) = true) sample_trace /\
  stored (run (firstn 2 sample_trace) empty_world) 1
    = Some (Note.mk 1 "A2" "B" 10 20) /\
  (1 <= length "A2" <= 200)%nat /\ (1 <= length "B")%nat.
Proof.
  assert (H : Forall (fun e => valid_call (call e) = true) sample_trace)
    by (repeat constructor).
  assert (H2 : Forall (fun e => valid_call (call e) = true)
                      (firstn 2 sample_trace))
    by (repeat constructor).
  split; [exact H|]. split; [reflexivity|].
  apply (stored_fields_stay_valid (firstn 2 sample_trace) 1
           (Note.mk 1 "A2" "B" 10 20) H2 eq_refl).
Defined.

(* ===================================================================== *)
(** ** The one repository of the process *)
(* ===================================================================== *)

Lemma nth_write_repo repo d l :
  (repo < List.length l)%nat -> nth repo (write_repo repo d l) Dict.empty = d.
Proof.
  revert repo. induction l as [|d0 l IH]; intros [|repo]; simpl; intros H;
    try lia; [reflexivity|]. apply IH. lia.
Qed.

Lemma length_write_repo repo d l :
  List.length (write_repo repo d l) = List.length l.
Proof.
  revert repo. induction l as [|d0 l IH]; intros [|repo]; simpl; auto.
Qed.

(** A process whose global name is bound to one of its instances. *)
Lemma request_bound e pr repo :
  _GLOBAL_NOTES_REPOSITORY pr = Some repo ->
  (repo < List.length (repositories pr))%nat ->
  _GLOBAL_NOTES_REPOSITORY (snd (request e pr)) = Some repo /\
  List.length (repositories (snd (request e pr)))
  = List.length (repositories pr) /\
  heap_next (snd (request e pr))
  = next_oid (snd (dispatch e {| next_oid := heap_next pr;
                                 _store := repo_store pr repo |})) /\
  repo_store (snd (request e pr)) repo
  = _store (snd (dispatch e {| next_oid := heap_next pr;
                               _store := repo_store pr repo |})).
Proof.
  intros Hg Hlt. unfold request, get_repository. rewrite Hg.
  destruct (dispatch e _) as [r w']. simpl.
  rewrite length_write_repo. repeat split; [assumption|].
  unfold repo_store. simpl. now apply nth_write_repo.
Qed.

Lemma requests_bound tr : forall pr repo,
  _GLOBAL_NOTES_REPOSITORY pr = Some repo ->
  (repo < List.length (repositories pr))%nat ->
  _GLOBAL_NOTES_REPOSITORY (requests tr pr) = Some repo /\
  List.length (repositories (requests tr pr))
  = List.length (repositories pr) /\
  repo_store (requests tr pr) repo
  = _store (serve_all tr {| next_oid := heap_next pr;
                            _store := repo_store pr repo |}).
Proof.
  induction tr as [|e tr IH]; simpl; intros pr repo Hg Hlt; [auto|].
  destruct (request_bound e pr repo Hg Hlt) as (Hg1 & Hlen1 & Hnext1 & Hst1).
  destruct (IH (snd (request e pr)) repo Hg1) as (Hg2 & Hlen2 & Hst2);
    [lia|].
  repeat split; [assumption | lia |].
  rewrite Hst2, Hnext1, Hst1.
  now destruct (snd (dispatch e _)).
Qed.

(** With bodies that the payload models accept, the routes leave the
    store that the repository calls leave. *)
Lemma serve_all_run tr : forall w,
  Forall (fun e => valid_call (call e) = true) tr ->
  serve_all tr w = run tr w.
Proof.
  induction tr as [|e tr IH]; simpl; intros w Hall; [reflexivity|].
  inversion Hall; subst. rewrite dispatch_exec by assumption. now apply IH.
Qed.

(** X14. [get_repository] leaves the global name bound to the instance it
    returns; a second call returns that same instance and changes
    nothing, and a name that is bound is never bound again.  In a process
    that has served no request the first call builds the instance, with
    an empty dict.  So the requests of a process all act on one
    instance: after any requests, one [NotesRepository] was built, the
    global name is bound to it, and its dict is the store that the routes
    of these requests leave when run one after the other on an empty
    store; for bodies that the payload models accept this is the store
    the repository calls leave. *)
Theorem get_repository_is_a_singleton (pr : Process) (e : Event)
    (tr : list Event) :
  _GLOBAL_NOTES_REPOSITORY (snd (get_repository pr))
    = Some (fst (get_repository pr)) /\
  get_repository (snd (get_repository pr))
    = (fst (get_repository pr), snd (get_repository pr)) /\
  (forall repo, _GLOBAL_NOTES_REPOSITORY pr = Some repo ->
                get_repository pr = (repo, pr)) /\
  repo_store (snd (get_repository fresh_process))
             (fst (get_repository fresh_process)) = Dict.empty /\
  List.length (repositories (requests (e :: tr) fresh_process)) = 1%nat /\
  global_store (requests (e :: tr) fresh_process)
    = Some (_store (serve_all (e :: tr) empty_world)) /\
  (Forall (fun e' => valid_call (call e') = true) (e :: tr) ->
   global_store (requests (e :: tr) fresh_process)
     = Some (_store (run (e :: tr) empty_world))).
Proof.
  assert (Hbind : _GLOBAL_NOTES_REPOSITORY (snd (get_repository pr))
                  = Some (fst (get_repository pr))).
  { unfold get_repository.
    destruct (_GLOBAL_NOTES_REPOSITORY pr) eqn:E; simpl; [exact E|].
    reflexivity. }
  assert (Hone : List.length (repositories (requests (e :: tr) fresh_process))
                 = 1%nat /\
                 global_store (requests (e :: tr) fresh_process)
                 = Some (_store (serve_all (e :: tr) empty_world))).
  { change (requests (e :: tr) fresh_process)
      with (requests tr (snd (request e fresh_process))).
    assert (Hfirst : snd (request e fresh_process)
                     = {| heap_next := next_oid (snd (dispatch e empty_world));
                          repositories :=
                            [_store (snd (dispatch e empty_world))];
                          _GLOBAL_NOTES_REPOSITORY := Some 0%nat |}).
    { unfold request. simpl.
      change {| next_oid := 0; _store := repo_store _ 0 |} with empty_world.
      now destruct (dispatch e empty_world). }
    destruct (requests_bound tr (snd (request e fresh_process)) 0%nat)
      as (Hg & Hlen & Hst).
    { now rewrite Hfirst. }
    { rewrite Hfirst. simpl. lia. }
    split.
    - rewrite Hlen, Hfirst. reflexivity.
    - unfold global_store. rewrite Hg. simpl. rewrite Hst, Hfirst.
      unfold repo_store. simpl.
      now destruct (snd (dispatch e empty_world)). }
  split; [exact Hbind|]. split.
  { unfold get_repository at 1. now rewrite Hbind. }
  split.
  { intros repo Hg. unfold get_repository. now rewrite Hg. }
  split; [reflexivity|].
  split; [apply Hone|]. split; [apply Hone|].
  intros Hall. rewrite (proj2 Hone). now rewrite serve_all_run.
Qed.

(* ===================================================================== *)
(** ** The id in the not-found message *)
(* ===================================================================== *)

Lemma str_length_app (a b : string) :
  length (a ++ b) = (length a + length b)%nat.
Proof. induction a as [|c a IH]; simpl; [reflexivity | now rewrite IH]. Qed.

Lemma str_app_inj (a a' b b' : string) :
  length a = length a' -> a ++ b = a' ++ b' -> a = a' /\ b = b'.
Proof.
  revert a'. induction a as [|c a IH]; intros [|c' a'] Hlen H;
    simpl in *; try discriminate.
  - auto.
  - injection H as -> H. injection Hlen as Hlen.
    destruct (IH a' Hlen H) as [-> ->]. auto.
Qed.

Lemma str_app_inv_tail (a a' b : string) : a ++ b = a' ++ b -> a = a'.
Proof.
  intros H. apply (str_app_inj a a' b b); [|exact H].
  apply (f_equal length) in H. rewrite !str_length_app in H. lia.
Qed.

Lemma hex_digits_length k : forall n, length (hex_digits k n) = k.
Proof.
  induction k as [|k IH]; intros n; simpl; [reflexivity|].
  rewrite str_length_app, IH. simpl. lia.
Qed.

Lemma hex_digit_inj (a b : N) :
  (a < 16)%N -> (b < 16)%N -> hex_digit a = hex_digit b -> a = b.
Proof.
  intros Ha Hb.
  assert (Ea : a = N.of_nat (N.to_nat a)) by now rewrite N2Nat.id.
  assert (Eb : b = N.of_nat (N.to_nat b)) by now rewrite N2Nat.id.
  assert (Ha' : (N.to_nat a < 16)%nat) by lia.
  assert (Hb' : (N.to_nat b < 16)%nat) by lia.
  unfold hex_digit. rewrite Ea, Eb, !Nat2N.id.
  generalize dependent (N.to_nat b). generalize dependent (N.to_nat a).
  intros x _ Hx y _ Hy.
  do 16 (destruct x as [|x]; [
    do 16 (destruct y as [|y]; [simpl; intros H; try reflexivity;
                                 discriminate H|]); lia |]).
  lia.
Qed.

Lemma hex_digits_inj k : forall u v,
  hex_digits k u = hex_digits k v -> (u mod 16 ^ N.of_nat k = v mod 16 ^ N.of_nat k)%N.
Proof.
  induction k as [|k IH]; intros u v H.
  - simpl. now rewrite !N.mod_1_r.
  - simpl in H. apply str_app_inj in H as [Hhi Hlo];
      [|now rewrite !hex_digits_length].
    injection Hlo as Hlo.
    apply hex_digit_inj in Hlo; try (apply N.mod_lt; discriminate).
    apply IH in Hhi.
    rewrite Nat2N.inj_succ, N.pow_succ_r', !N.Div0.mod_mul_r.
    now rewrite Hlo, Hhi.
Qed.

(** The hyphens cut the 32 digits without losing any. *)
Lemma uuid_layout_inj (h h' : string) :
  length h = 32%nat -> length h' = 32%nat ->
  substring 0 8 h ++ "-" ++ substring 8 4 h ++ "-" ++
  substring 12 4 h ++ "-" ++ substring 16 4 h ++ "-" ++ substring 20 12 h
  = substring 0 8 h' ++ "-" ++ substring 8 4 h' ++ "-" ++
    substring 12 4 h' ++ "-" ++ substring 16 4 h' ++ "-" ++
    substring 20 12 h' ->
  h = h'.
Proof.
  intros Hh Hh'.
  do 32 (destruct h as [|? h]; [discriminate Hh|]).
  destruct h; [|discriminate Hh].
  do 32 (destruct h' as [|? h']; [discriminate Hh'|]).
  destruct h'; [|discriminate Hh'].
  simpl. intros H. injection H. intros. subst. reflexivity.
Qed.

Lemma uuid_str_inj (u v : UUID) :
  (u < 2 ^ 128)%N -> (v < 2 ^ 128)%N -> uuid_str u = uuid_str v -> u = v.
Proof.
  intros Hu Hv H. unfold uuid_str in H.
  apply uuid_layout_inj in H; try apply hex_digits_length.
  apply hex_digits_inj in H.
  change (16 ^ N.of_nat 32)%N with (2 ^ 128)%N in H.
  now rewrite !N.mod_small in H.
Qed.

(** X15. The not-found message tells the id: for two different 128-bit
    ids the messages differ, so the detail of a 404 answer identifies the
    id that was asked for. *)
Theorem not_found_msg_identifies_id (u v : UUID) :
  (u < 2 ^ 128)%N -> (v < 2 ^ 128)%N ->
  NotesRepository.not_found_msg u = NotesRepository.not_found_msg v ->
  u = v.
Proof.
  intros Hu Hv H. apply uuid_str_inj; try assumption.
  unfold NotesRepository.not_found_msg in H.
  generalize dependent (uuid_str v). generalize dependent (uuid_str u).
  intros a b H. simpl in H. injection H as H.
  now apply str_app_inv_tail in H.
Qed.

Lemma not_found_msg_identifies_id_witness :
  (7 < 2 ^ 128)%N /\
  NotesRepository.not_found_msg 7 = NotesRepository.not_found_msg 7 /\
  7%N = 7%N.
Proof.
  assert (H : (7 < 2 ^ 128)%N) by reflexivity.
  split; [exact H|]. split; [reflexivity|].
  apply (not_found_msg_identifies_id 7 7 H H eq_refl).
Defined.

(* ===================================================================== *)
(** ** Listing order and creation order *)
(* ===================================================================== *)

Section SortedAlready.
Context {A : Type} (key : A -> Z).

Lemma sorted_already l :
  StronglySorted (key_le key) l -> sorted key l = l.
Proof.
  induction 1 as [|x l Hs IH Hall]; simpl; [reflexivity|].
  rewrite IH. apply insert_by_front.
  destruct l; constructor. now inversion Hall.
Qed.

Lemma strongly_sorted_keys l :
  StronglySorted (key_le key) l <-> StronglySorted Z.le (map key l).
Proof.
  induction l as [|x l IH]; simpl.
  - split; constructor.
  - split; intros H; inversion H as [|? ? Hs Hall]; subst;
      constructor; try (apply IH; assumption).
    + rewrite Forall_map. exact Hall.
    + rewrite Forall_map in Hall. exact Hall.
Qed.

Lemma strongly_sorted_replace a x x' b :
  key x' = key x ->
  StronglySorted (key_le key) (a ++ x :: b) ->
  StronglySorted (key_le key) (a ++ x' :: b).
Proof.
  intros Hk. rewrite !strongly_sorted_keys, !map_app. simpl.
  now rewrite Hk.
Qed.

Lemma strongly_sorted_remove a x b :
  StronglySorted (key_le key) (a ++ x :: b) ->
  StronglySorted (key_le key) (a ++ b).
Proof.
  induction a as [|y a IH]; simpl; intros H;
    inversion H as [|? ? Hs Hall]; subst; [assumption|].
  constructor; [auto|].
  rewrite Forall_app in *. destruct Hall as [H1 H2].
  inversion H2; subst. auto.
Qed.

Lemma strongly_sorted_append l x :
  StronglySorted (key_le key) l -> Forall (fun y => key y <= key x) l ->
  StronglySorted (key_le key) (l ++ [x]).
Proof.
  induction 1 as [|y l Hs IH Hall]; simpl; intros Hle.
  - repeat constructor.
  - inversion Hle; subst. constructor; [auto|].
    rewrite Forall_app. split; [exact Hall|]. now repeat constructor.
Qed.
End SortedAlready.

Lemma exec_keeps_creation_order t e w :
  t <= at_time e ->
  match call e with
  | CallCreate u _ => ~ In u (Dict.keys (_store w))
  | _ => True
  end ->
  stamps_ok t w ->
  StronglySorted (key_le created) (Dict.values (_store w)) ->
  StronglySorted (key_le created) (Dict.values (_store (exec e w))).
Proof.
  intros Hle Hfresh Hok Hs. unfold exec.
  destruct (call e) as [|u p|i|i p|i].
  - exact Hs.
  - destruct (create_note_cases u (at_time e) p w) as [[_ ->]|[_ ->]];
      [|exact Hs].
    simpl.
    rewrite (DictFacts.set_absent _ _ _ Hfresh), values_app. simpl.
    apply strongly_sorted_append; [exact Hs|].
    unfold stamps_ok in Hok. eapply Forall_impl; [|exact Hok].
    unfold created. simpl. intros o [H1 H2]. lia.
  - now rewrite get_note_world.
  - destruct (update_note_cases (at_time e) w i p)
      as [(o & Hget & ->)|(x & ->)]; [|exact Hs].
    simpl. destruct (dict_split _ _ _ Hget) as (d1 & d2 & Hd & Hset & _).
    rewrite Hset, values_app. simpl.
    apply (strongly_sorted_replace created _ o); [reflexivity|].
    rewrite Hd, values_app in Hs. exact Hs.
  - destruct (in_dec N.eq_dec i (Dict.keys (_store w))) as [Hin|Hnotin].
    + rewrite (delete_note_present _ _ Hin). simpl.
      destruct (Dict.get (_store w) i) as [o|] eqn:Hget.
      * destruct (dict_split _ _ _ Hget) as (d1 & d2 & Hd & _ & Hdel).
        rewrite Hdel, values_app.
        apply (strongly_sorted_remove created _ o).
        rewrite Hd, values_app in Hs. exact Hs.
      * apply DictFacts.get_None_iff in Hget. contradiction.
    + now rewrite (delete_note_missing _ _ Hnotin).
Qed.

Lemma run_keeps_creation_order tr : forall t w,
  clock_nondecreasing t tr -> creates_fresh tr w ->
  stamps_ok t w ->
  StronglySorted (key_le created) (Dict.values (_store w)) ->
  StronglySorted (key_le created) (Dict.values (_store (run tr w))).
Proof.
  induction tr as [|e tr IH]; simpl; intros t w Hclock Hfresh Hok Hs;
    [exact Hs|].
  destruct Hclock as [Hle Hclock]. destruct Hfresh as [Hnew Hfresh].
  apply (IH (at_time e)); auto.
  - now apply exec_stamps_ok with (t := t).
  - now apply exec_keeps_creation_order with (t := t).
Qed.

(** X16. With a clock that never steps back and creations that draw
    unused ids, the dict holds the notes in the order of their
    [created_at], so the sort of [list_notes] moves nothing: the listing
    is the notes in the order in which they entered the store. *)
Theorem listing_is_creation_order (t0 : datetime) (tr : list Event) :
  clock_nondecreasing t0 tr -> creates_fresh tr empty_world ->
  NotesRepository.list_notes (run tr empty_world)
  = (Ok (Dict.values (_store (run tr empty_world))), run tr empty_world).
Proof.
  intros Hclock Hfresh. rewrite list_notes_eq. f_equal. f_equal.
  apply sorted_already.
  apply (run_keeps_creation_order tr t0); auto; constructor.
Qed.

Lemma listing_is_creation_order_witness :
  clock_nondecreasing 0 sample_creates /\
  creates_fresh sample_creates empty_world /\
  NotesRepository.list_notes sample_world
  = (Ok (Dict.values (_store sample_world)), sample_world).
Proof.
  assert (H1 : clock_nondecreasing 0 sample_creates) by (simpl; lia).
  assert (H2 : creates_fresh sample_creates empty_world).
  { simpl. repeat split; auto. intros [E|[]]. discriminate E. }
  split; [exact H1|]. split; [exact H2|].
  apply (listing_is_creation_order 0 sample_creates H1 H2).
Defined.
